(** * cursor-dual-model-proxy: a shallow embedding of [src/index.js]

    The proxy is one Express handler, [POST /v1/chat/completions], which
    validates the inbound chat request, asks a local Ollama model for a
    "thought" fragment, merges the fragment into the message list, forwards
    the result to OpenRouter and relays the answer.

    Conventions of the embedding:
    - a JavaScript string is the list of its UTF-16 code units ([jsstring]);
    - a JavaScript value that can come out of [JSON.parse] (plus [undefined])
      is a [value]; an object is a finite map from property names to values;
    - a function that can throw returns a [result]; an [async] function
      returns the list of the calls it issued on the outside world (the
      [fetch]es, the calls on the Express response, the timer) together with
      its [outcome];
    - a [fetch], or the reading of a body, is answered by the outside world:
      with a value, with a failure, or never, since the program sets no
      timeout;
    - the Express response [res] is known by the calls made on it so far;
    - calls on [console] are not modelled. *)

From Stdlib Require Import ZArith NArith Ascii String DecimalString.
From stdpp Require Import gmap list.

#[local] Set Warnings "-register-all".
#[local] Open Scope string_scope.
#[local] Open Scope list_scope.
#[local] Open Scope N_scope.

(** ** Strings *)

Abbreviation jsstring := (list N).

Definition str (s : string) : jsstring :=
  (fun a => N_of_ascii a) <$> list_ascii_of_string s.
Coercion str : string >-> list.

(** [String(n)] for a non-negative integer below 2^53. *)
Definition N_to_jsstring (n : N) : jsstring :=
  str (NilZero.string_of_uint (N.to_uint n)).

Fixpoint startsWith (pat s : jsstring) : bool :=
  match pat, s with
  | [], _ => true
  | p :: pat', c :: s' => (p =? c) && startsWith pat' s'
  | _ :: _, [] => false
  end.

(** [s.indexOf(pat)]: the least position at which [pat] occurs in [s];
    [None] stands for [-1]. *)
Fixpoint indexOf (pat s : jsstring) : option nat :=
  if startsWith pat s then Some 0%nat
  else match s with
       | [] => None
       | _ :: s' => S <$> indexOf pat s'
       end.

(** [s.replace(pat, '')] for a string pattern: only the first occurrence of
    [pat] is replaced. *)
Definition replace_with_empty (pat s : jsstring) : jsstring :=
  match indexOf pat s with
  | None => s
  | Some i => take i s ++ drop (i + length pat) s
  end.

(** [s.split(sep)] for a one-unit separator. *)
Fixpoint split (sep : N) (s : jsstring) : list jsstring :=
  match s with
  | [] => [[]]
  | c :: s' =>
      if c =? sep then [] :: split sep s'
      else match split sep s' with
           | l :: ls => (c :: l) :: ls
           | [] => [[c]]
           end
  end.

(** ECMAScript WhiteSpace and LineTerminator code units, the ones
    [String.prototype.trim] strips. *)
Definition isWhiteSpace (c : N) : bool :=
  ((9 <=? c) && (c <=? 13)) || (c =? 32) || (c =? 160) || (c =? 5760)
  || ((8192 <=? c) && (c <=? 8202)) || (c =? 8232) || (c =? 8233)
  || (c =? 8239) || (c =? 8287) || (c =? 12288) || (c =? 65279).

Fixpoint trimStart (s : jsstring) : jsstring :=
  match s with
  | c :: s' => if isWhiteSpace c then trimStart s' else s
  | [] => []
  end.

Definition trimEnd (s : jsstring) : jsstring := reverse (trimStart (reverse s)).

Definition trim (s : jsstring) : jsstring := trimEnd (trimStart s).

(** ** Numbers

    [JSON.parse] turns a numeric literal into the nearest IEEE 754 binary64
    number; string concatenation prints a number with [Number::toString],
    the shortest decimal that reads back as the same number. Both are done
    here in exact integer arithmetic. *)

Module Float64.

(** A binary64 number other than NaN: [Fin neg m e] is
    [(-1)^neg * m * 2^e], with [m < 2^53] and [-1074 <= e <= 971]. *)
Inductive t :=
| Fin (neg : bool) (m : N) (e : Z)
| Inf (neg : bool).

Definition eqb (x y : t) : bool :=
  match x, y with
  | Fin n1 m1 e1, Fin n2 m2 e2 => Bool.eqb n1 n2 && (m1 =? m2) && (e1 =? e2)%Z
  | Inf n1, Inf n2 => Bool.eqb n1 n2
  | _, _ => false
  end.

Definition digits10 (n : N) : nat := length (N_to_jsstring n).

(** The integer nearest to [a / b], ties to the even one. *)
Definition div_round_even (a b : N) : N :=
  let q := a / b in
  let r := a mod b in
  if 2 * r <? b then q
  else if b <? 2 * r then q + 1
  else if N.even q then q else q + 1.

(** The binary64 number nearest to [(-1)^neg * M * 10^E]. *)
Definition of_decimal (neg : bool) (M : N) (E : Z) : t :=
  let d := (E + Z.of_nat (digits10 M))%Z in
  if M =? 0 then Fin neg 0 0
  else if (400 <? d)%Z then Inf neg
  else if (d <? -400)%Z then Fin neg 0 0
  else
    let num := if (0 <=? E)%Z then M * 10 ^ Z.to_N E else M in
    let den := if (0 <=? E)%Z then 1 else 10 ^ Z.to_N (- E) in
    let l0 := (Z.of_N (N.log2 num) - Z.of_N (N.log2 den))%Z in
    let ge := if (0 <=? l0)%Z then den * 2 ^ Z.to_N l0 <=? num
              else den <=? num * 2 ^ Z.to_N (- l0) in
    let l := if ge then l0 else (l0 - 1)%Z in
    let e := Z.max (l - 52) (-1074) in
    let q := if (0 <=? e)%Z then div_round_even num (den * 2 ^ Z.to_N e)
             else div_round_even (num * 2 ^ Z.to_N (- e)) den in
    let '(q, e) := if q =? 2 ^ 53 then (2 ^ 52, (e + 1)%Z) else (q, e) in
    if q =? 0 then Fin neg 0 0
    else if (971 <? e)%Z then Inf neg
    else Fin neg q e.

(** [ToBoolean] of a number: false for the two zeros only. *)
Definition to_boolean (x : t) : bool :=
  match x with
  | Fin _ m _ => negb (m =? 0)
  | Inf _ => true
  end.

(** Least [j >= j0] with [den <= num * 10^j]. *)
Fixpoint scale_up (fuel : nat) (j num den : N) : N :=
  match fuel with
  | O => j
  | S fuel' => if den <=? num * 10 ^ j then j else scale_up fuel' (j + 1) num den
  end.

(** [floor (log10 (num / den))] for a positive quotient. *)
Definition floor_log10 (num den : N) : Z :=
  if den <=? num then (Z.of_nat (digits10 (num / den)) - 1)%Z
  else (- Z.of_N (scale_up 400 1 num den))%Z.

(** The candidates with [k] digits around [num / den], and the search for
    the least [k] at which one of them reads back as [Fin false m e]; of
    two that do, the one nearer to the number wins, the even one on a
    tie. The result is [(s, t)], standing for [s * 10^t]. *)
Fixpoint shortest (fuel : nat) (k : Z) (m : N) (e : Z) (num den : N) (p : Z)
  : N * Z :=
  let t := (p + 1 - k)%Z in
  let lo := if (0 <=? t)%Z then num / (den * 10 ^ Z.to_N t)
            else (num * 10 ^ Z.to_N (- t)) / den in
  let hi := lo + 1 in
  let back s := eqb (of_decimal false s t) (Fin false m e) in
  let twice := if (0 <=? t)%Z then 2 * num else 2 * num * 10 ^ Z.to_N (- t) in
  let mid := if (0 <=? t)%Z then (2 * lo + 1) * den * 10 ^ Z.to_N t
             else (2 * lo + 1) * den in
  match fuel with
  | O => (lo, t)
  | S fuel' =>
      match back lo, back hi with
      | true, true =>
          if twice <? mid then (lo, t)
          else if mid <? twice then (hi, t)
          else if N.even lo then (lo, t) else (hi, t)
      | true, false => (lo, t)
      | false, true => (hi, t)
      | false, false => shortest fuel' (k + 1)%Z m e num den p
      end
  end.

Fixpoint strip_zeros (rev_digits : jsstring) : jsstring :=
  match rev_digits with
  | 48 :: r => strip_zeros r
  | _ => rev_digits
  end.

(** The layout rules of [Number::toString]: [digits] are the [k]
    significant digits and the number is [0.digits * 10^n]. *)
Definition layout (digits : jsstring) (n : Z) : jsstring :=
  let k := Z.of_nat (length digits) in
  if ((k <=? n) && (n <=? 21))%Z then
    digits ++ replicate (Z.to_nat (n - k)) 48
  else if ((0 <? n) && (n <=? 21))%Z then
    take (Z.to_nat n) digits ++ str "." ++ drop (Z.to_nat n) digits
  else if ((-6 <? n) && (n <=? 0))%Z then
    str "0." ++ replicate (Z.to_nat (- n)) 48 ++ digits
  else
    let ex := (n - 1)%Z in
    let mant := if (k =? 1)%Z then digits
                else take 1 digits ++ str "." ++ drop 1 digits in
    mant ++ str "e" ++ (if (ex <? 0)%Z then str "-" else str "+")
         ++ N_to_jsstring (Z.abs_N ex).

Definition to_string (x : t) : jsstring :=
  match x with
  | Inf neg => (if neg then str "-" else []) ++ str "Infinity"
  | Fin neg m e =>
      if m =? 0 then str "0"
      else
        let num := if (0 <=? e)%Z then m * 2 ^ Z.to_N e else m in
        let den := if (0 <=? e)%Z then 1 else 2 ^ Z.to_N (- e) in
        let '(s, t) := shortest 17 1 m e num den (floor_log10 num den) in
        let all := N_to_jsstring s in
        let digits := reverse (strip_zeros (reverse all)) in
        (if neg then str "-" else [])
          ++ layout digits (t + Z.of_nat (length all))
      end.

End Float64.


(** ** [TextDecoder] *)

(** [new TextDecoder().decode(value)]: the UTF-8 decoder of the Encoding
    Standard, run on one chunk from its initial state to the end of the
    chunk, errors replaced by U+FFFD, a leading byte order mark dropped, the
    code points then written as UTF-16 code units. *)
Module TextDecoder.

Record state := {
  code_point : N;
  bytes_seen : N;
  bytes_needed : N;
  lower_boundary : N;
  upper_boundary : N
}.

Definition initial : state := {|
  code_point := 0; bytes_seen := 0; bytes_needed := 0;
  lower_boundary := 128; upper_boundary := 191
|}.

(** A byte met when no sequence is open. *)
Definition lead (byte : N) : list N * state :=
  if byte <=? 127 then ([byte], initial)
  else if (194 <=? byte) && (byte <=? 223)
  then ([], {| code_point := N.land byte 31; bytes_seen := 0; bytes_needed := 1;
               lower_boundary := 128; upper_boundary := 191 |})
  else if (224 <=? byte) && (byte <=? 239)
  then ([], {| code_point := N.land byte 15; bytes_seen := 0; bytes_needed := 2;
               lower_boundary := if byte =? 224 then 160 else 128;
               upper_boundary := if byte =? 237 then 159 else 191 |})
  else if (240 <=? byte) && (byte <=? 244)
  then ([], {| code_point := N.land byte 7; bytes_seen := 0; bytes_needed := 3;
               lower_boundary := if byte =? 240 then 144 else 128;
               upper_boundary := if byte =? 244 then 143 else 191 |})
  else ([65533], initial).

(** One byte through the decoder: the code points it gives, and the state
    afterwards. A byte that cannot continue the open sequence ends it with
    an error and is then handled as a byte met with no sequence open. *)
Definition step (st : state) (byte : N) : list N * state :=
  if bytes_needed st =? 0 then lead byte
  else if (byte <? lower_boundary st) || (upper_boundary st <? byte)
  then let '(out, st') := lead byte in (65533 :: out, st')
  else
    let cp := N.lor (N.shiftl (code_point st) 6) (N.land byte 63) in
    if bytes_seen st + 1 =? bytes_needed st
    then ([cp], initial)
    else ([], {| code_point := cp; bytes_seen := bytes_seen st + 1;
                 bytes_needed := bytes_needed st;
                 lower_boundary := 128; upper_boundary := 191 |}).

(** To the end of the chunk, where an open sequence is an error. *)
Fixpoint run (st : state) (bytes : list N) : list N :=
  match bytes with
  | [] => if bytes_needed st =? 0 then [] else [65533]
  | byte :: bytes' => let '(out, st') := step st byte in out ++ run st' bytes'
  end.

Definition code_units (cp : N) : jsstring :=
  if cp <? 65536 then [cp]
  else [55296 + (cp - 65536) / 1024; 56320 + (cp - 65536) mod 1024].

Definition decode (value : list N) : jsstring :=
  let code_points := run initial value in
  let code_points := match code_points with
                     | 65279 :: rest => rest
                     | _ => code_points
                     end in
  code_points ≫= code_units.

End TextDecoder.

(** ** Values, errors and results *)

Inductive value :=
| VUndef
| VNull
| VBool (b : bool)
| VNum (x : Float64.t)
| VStr (s : jsstring)
| VArr (l : list value)
| VObj (o : gmap jsstring value).

(** What a [throw] carries: an instance of the program's own [APIError]
    class, or an error of the runtime ([TypeError], [SyntaxError]), which has
    a message and no [statusCode]. *)
Inductive error :=
| APIError (message : jsstring) (statusCode : N)
| JSError (name : string) (message : jsstring).

Inductive result (A : Type) :=
| Ok (a : A)
| Throw (e : error).
Arguments Ok {A} a.
Arguments Throw {A} e.

#[global] Instance result_ret : MRet result := fun A a => Ok a.
#[global] Instance result_bind : MBind result := fun A B f m =>
  match m with
  | Ok a => f a
  | Throw e => Throw e
  end.

Definition TypeError (message : string) : error := JSError "TypeError" (str message).

(** [v.k], for the property names this program reads ([messages], [role],
    [content], [message], [done], [stream]): none of them is a property of
    an array, a string, a number or a boolean, so only an object can hold
    one. *)
Definition get (k : jsstring) (v : value) : result value :=
  match v with
  | VUndef =>
      Throw (JSError "TypeError"
               (str "Cannot read properties of undefined (reading '" ++ k ++ str "')"))
  | VNull =>
      Throw (JSError "TypeError"
               (str "Cannot read properties of null (reading '" ++ k ++ str "')"))
  | VObj o => Ok (default VUndef (o !! k))
  | _ => Ok VUndef
  end.

(** [const { k } = v], where [source] is the text of the expression that
    gave [v]. *)
Definition destructure (k source : jsstring) (v : value) : result value :=
  match v with
  | VUndef =>
      Throw (JSError "TypeError"
               (str "Cannot destructure property '" ++ k ++ str "' of '" ++ source
                  ++ str "' as it is undefined."))
  | VNull =>
      Throw (JSError "TypeError"
               (str "Cannot destructure property '" ++ k ++ str "' of '" ++ source
                  ++ str "' as it is null."))
  | VObj o => Ok (default VUndef (o !! k))
  | _ => Ok VUndef
  end.

(** [v?.k] *)
Definition get_opt (k : jsstring) (v : value) : value :=
  match v with
  | VObj o => default VUndef (o !! k)
  | _ => VUndef
  end.

(** [v === s] for a string [s]. *)
Definition strict_eq_str (v : value) (s : jsstring) : bool :=
  match v with
  | VStr t => bool_decide (t = s)
  | _ => false
  end.

Definition Array_isArray (v : value) : bool :=
  match v with
  | VArr _ => true
  | _ => false
  end.

Definition ToBoolean (v : value) : bool :=
  match v with
  | VUndef | VNull => false
  | VBool b => b
  | VNum x => Float64.to_boolean x
  | VStr s => negb (bool_decide (s = []))
  | VArr _ | VObj _ => true
  end.

(** [ToString], as string concatenation applies it. An array prints its
    elements joined by commas, [null] and [undefined] as nothing. An object
    prints as [[object Object]] through [Object.prototype.toString], unless
    an own property named [toString] hides that method: the property of a
    parsed object is never callable, and the conversion throws. *)
Fixpoint ToString (v : value) : result jsstring :=
  match v with
  | VUndef => Ok (str "undefined")
  | VNull => Ok (str "null")
  | VBool b => Ok (if b then str "true" else str "false")
  | VNum x => Ok (Float64.to_string x)
  | VStr s => Ok s
  | VArr l =>
      (fix join (l : list value) : result jsstring :=
         let element e :=
           match e with
           | VUndef | VNull => Ok []
           | _ => ToString e
           end in
         match l with
         | [] => Ok []
         | [e] => element e
         | e :: l' => s ← element e; r ← join l'; Ok (s ++ str "," ++ r)
         end) l
  | VObj o =>
      match o !! str "toString" with
      | Some _ => Throw (TypeError "Cannot convert object to primitive value")
      | None => Ok (str "[object Object]")
      end
  end.

(** ** [JSON.parse] *)

Module JSON.

Definition isWs (c : N) : bool := (c =? 32) || (c =? 9) || (c =? 10) || (c =? 13).

Fixpoint skip_ws (s : jsstring) : jsstring :=
  match s with
  | c :: s' => if isWs c then skip_ws s' else s
  | [] => []
  end.

Definition isDigit (c : N) : bool := (48 <=? c) && (c <=? 57).

Fixpoint digits (s : jsstring) : jsstring * jsstring :=
  match s with
  | c :: s' => if isDigit c then let '(ds, r) := digits s' in (c :: ds, r) else ([], s)
  | [] => ([], [])
  end.

Definition digits_value (ds : jsstring) : N :=
  foldl (fun acc d => 10 * acc + (d - 48)) 0 ds.

Definition hex (c : N) : option N :=
  if isDigit c then Some (c - 48)
  else if (97 <=? c) && (c <=? 102) then Some (c - 87)
  else if (65 <=? c) && (c <=? 70) then Some (c - 55)
  else None.

(** A numeric literal: an optional minus sign; a lone zero, or digits
    that do not start with zero; an optional fraction of a point and
    digits; an optional exponent of [e] or [E], a sign and digits. *)
Definition number (s : jsstring) : option (value * jsstring) :=
  let '(neg, s) := match s with 45 :: r => (true, r) | _ => (false, s) end in
  '(int, s) ← match s with
              | 48 :: r => Some ([48], r)
              | _ => let '(ds, r) := digits s in
                     if bool_decide (ds = []) then None else Some (ds, r)
              end;
  '(frac, s) ← match s with
               | 46 :: r => let '(ds, r') := digits r in
                            if bool_decide (ds = []) then None else Some (ds, r')
               | _ => Some ([], s)
               end;
  '(ex, s) ← match s with
             | 101 :: r | 69 :: r =>
                 let '(minus, r) := match r with
                                    | 45 :: r' => (true, r')
                                    | 43 :: r' => (false, r')
                                    | _ => (false, r)
                                    end in
                 let '(ds, r') := digits r in
                 if bool_decide (ds = []) then None
                 else Some (if minus then (- Z.of_N (digits_value ds))%Z
                            else Z.of_N (digits_value ds), r')
             | _ => Some (0%Z, s)
             end;
  Some (VNum (Float64.of_decimal neg (digits_value (int ++ frac))
                (ex - Z.of_nat (length frac))), s).

(** The rest of a string literal, after its opening quote. *)
Fixpoint string_body (s : jsstring) : option (jsstring * jsstring) :=
  match s with
  | [] => None
  | 34 :: r => Some ([], r)
  | 92 :: r =>
      match r with
      | 117 :: a :: b :: c :: d :: r' =>
          a ← hex a; b ← hex b; c ← hex c; d ← hex d;
          '(t, r'') ← string_body r';
          Some ((4096 * a + 256 * b + 16 * c + d) :: t, r'')
      | e :: r' =>
          u ← (if (e =? 34) || (e =? 92) || (e =? 47) then Some e
               else if e =? 98 then Some 8
               else if e =? 102 then Some 12
               else if e =? 110 then Some 10
               else if e =? 114 then Some 13
               else if e =? 116 then Some 9
               else None);
          '(t, r'') ← string_body r';
          Some (u :: t, r'')
      | [] => None
      end
  | c :: r =>
      if c <? 32 then None
      else '(t, r') ← string_body r; Some (c :: t, r')
  end.

Fixpoint parse_value (fuel : nat) (s : jsstring) : option (value * jsstring) :=
  match fuel with
  | O => None
  | S fuel' =>
      match skip_ws s with
      | 123 :: r =>
          match skip_ws r with
          | 125 :: r' => Some (VObj ∅, r')
          | r1 => members fuel' ∅ r1
          end
      | 91 :: r =>
          match skip_ws r with
          | 93 :: r' => Some (VArr [], r')
          | r1 => elements fuel' [] r1
          end
      | 34 :: r => '(t, r') ← string_body r; Some (VStr t, r')
      | 116 :: 114 :: 117 :: 101 :: r => Some (VBool true, r)
      | 102 :: 97 :: 108 :: 115 :: 101 :: r => Some (VBool false, r)
      | 110 :: 117 :: 108 :: 108 :: r => Some (VNull, r)
      | r => number r
      end
  end
with elements (fuel : nat) (acc : list value) (s : jsstring)
  : option (value * jsstring) :=
  match fuel with
  | O => None
  | S fuel' =>
      '(v, r) ← parse_value fuel' s;
      match skip_ws r with
      | 44 :: r' => elements fuel' (acc ++ [v]) r'
      | 93 :: r' => Some (VArr (acc ++ [v]), r')
      | _ => None
      end
  end
with members (fuel : nat) (acc : gmap jsstring value) (s : jsstring)
  : option (value * jsstring) :=
  match fuel with
  | O => None
  | S fuel' =>
      match skip_ws s with
      | 34 :: r =>
          '(k, r1) ← string_body r;
          match skip_ws r1 with
          | 58 :: r2 =>
              '(v, r3) ← parse_value fuel' r2;
              match skip_ws r3 with
              | 44 :: r4 => members fuel' (<[k:=v]> acc) r4
              | 125 :: r4 => Some (VObj (<[k:=v]> acc), r4)
              | _ => None
              end
          | _ => None
          end
      | _ => None
      end
  end.

(** [JSON.parse(text)]: one value, white space around it, nothing else. *)
Definition parse (text : jsstring) : result value :=
  match parse_value (2 * length text + 2) text with
  | Some (v, r) =>
      if bool_decide (skip_ws r = []) then Ok v
      else Throw (JSError "SyntaxError" (str "Unexpected non-whitespace character after JSON"))
  | None => Throw (JSError "SyntaxError" (str "Unexpected token in JSON"))
  end.

End JSON.

(** ** The outside world and asynchronous code *)

(** What the relay meets while it copies the upstream body: a chunk read
    (the bytes of a [Uint8Array], each below 256), the end of the body, a
    failed read, the 15 second interval elapsing, the caller closing its
    connection. A schedule that stops before the body ends or a read fails
    is one whose next read never settles. *)
Inductive stream_event :=
| Chunk (value : list N)
| EndOfStream
| ReadError (message : jsstring)
| Tick
| ClientClose.

(** The answer of the network to a [fetch], or to reading a body: a value;
    a failure, which rejects the promise with an error of the runtime
    (a [TypeError] when the network fails, a [SyntaxError] when the body is
    not JSON); or nothing, ever: the program sets no timeout, and a peer
    that does not answer leaves the promise pending. *)
Inductive net (A : Type) :=
| Reply (a : A)
| Failed (name : string) (message : jsstring)
| Pending.
Arguments Reply {A} a.
Arguments Failed {A} name message.
Arguments Pending {A}.

(** A response as [fetch] delivers it. Its status is the three-digit code
    of the status line, between 100 and 999, which is also the range that
    the HTTP server of the runtime accepts for [res.status]. *)
Record ollama_response := {
  ollama_status : N;
  ollama_text : net jsstring                (* [response.text()] *)
}.

Record openrouter_response := {
  openrouter_status : N;
  openrouter_json : net value;              (* [response.json()] *)
  openrouter_body : list stream_event       (* what happens while [response.body] is relayed *)
}.

(** The null body statuses of the Fetch Standard: under them
    [response.body] is [null]. *)
Definition null_body_status (status : N) : bool :=
  bool_decide (status ∈ [101; 103; 204; 205; 304]).

(** The world answers each outbound request; the answer may depend on what
    was sent. *)
Record world := {
  ollama : value → net ollama_response;
  openrouter : jsstring → value → net openrouter_response
}.

Record request := {
  body : value;                             (* [req.body], from [express.json()] *)
  authorization : option jsstring           (* [req.headers.authorization] *)
}.

(** The calls the handler issues, in order. A [Fetch] records the object
    handed to [JSON.stringify], not its text. *)
Inductive event :=
| Fetch (url : jsstring) (headers : list (jsstring * jsstring)) (payload : value)
| SetHeader (name text : jsstring)
| Status (code : N)
| Json (payload : value)
| Write (text : jsstring)
| End
| SetInterval (ms : N)
| ClearInterval.

(** An asynchronous computation: the calls it issued, and how it settled;
    [None] when it is still waiting and never resumes. *)
Record M (A : Type) := Run {
  calls : list event;
  outcome : option (result A)
}.
Arguments Run {A} calls outcome.
Arguments calls {A} m.
Arguments outcome {A} m.

#[global] Instance M_ret : MRet M := fun A a => Run [] (Some (Ok a)).
#[global] Instance M_bind : MBind M := fun A B f m =>
  match outcome m with
  | Some (Ok a) => Run (calls m ++ calls (f a)) (outcome (f a))
  | Some (Throw e) => Run (calls m) (Some (Throw e))
  | None => Run (calls m) None
  end.

Definition lift {A} (r : result A) : M A := Run [] (Some r).
Definition emit (ev : event) : M unit := Run [ev] (Some (Ok tt)).

(** [try { m } catch (error) { h(error) }] *)
Definition try_catch {A} (m : M A) (h : error → M A) : M A :=
  match outcome m with
  | Some (Throw e) => Run (calls m ++ calls (h e)) (outcome (h e))
  | _ => m
  end.

(** [await] of a promise of the network. *)
Definition await {A} (n : net A) : M A :=
  match n with
  | Reply a => lift (Ok a)
  | Failed name message => lift (Throw (JSError name message))
  | Pending => Run [] None
  end.

(** [response.ok] *)
Definition ok (status : N) : bool := (200 <=? status) && (status <=? 299).

(** ** The program *)

Definition OLLAMA_URL : jsstring := "http://127.0.0.1:11434".
Definition OPENROUTER_URL : jsstring := "https://openrouter.ai/api/v1/chat/completions".
Definition DEEPSEEK_CHAT_MODEL : jsstring := "deepseek-r1:1.5b".
Definition CLAUDE_MODEL : jsstring := "anthropic/claude-3.5-sonnet".

Definition validateRequest (req : request) : result value :=
  messages ← destructure "messages" "req.body" (body req);
  if negb (Array_isArray messages)
     || match messages with VArr l => bool_decide (length l = 0%nat) | _ => false end
  then Throw (APIError "Invalid request: messages array is required" 400)
  else Ok (body req).

Definition getOpenRouterKey (req : request) : result jsstring :=
  let key := replace_with_empty "Bearer " <$> authorization req in
  match key with
  | None | Some [] => Throw (APIError "Missing OpenRouter API key" 401)
  | Some key => Ok key
  end.

(** [m => ({ role: m.role === 'tool' ? 'user' : m.role, content: m.content })] *)
Definition remap (m : value) : result value :=
  role ← get "role" m;
  content ← get "content" m;
  Ok (VObj (<[str "role" := if strict_eq_str role "tool" then VStr "user" else role]>
              (<[str "content" := content]> ∅))).

Definition prepareOllamaRequest (chatReq : value) : result value :=
  match chatReq with
  | VObj o =>
      let cleanReq := delete (str "tools") o in
      messages ← match cleanReq !! str "messages" with
                 | Some (VArr l) => mapM remap l
                 | None | Some VUndef =>
                     Throw (TypeError "Cannot read properties of undefined (reading 'map')")
                 | Some VNull =>
                     Throw (TypeError "Cannot read properties of null (reading 'map')")
                 | Some _ => Throw (TypeError "cleanReq.messages.map is not a function")
                 end;
      Ok (VObj (<[str "options" := VObj {[ str "stop" := VArr [VStr "</think>"] ]}]>
                  (<[str "model" := VStr DEEPSEEK_CHAT_MODEL]>
                     (<[str "messages" := VArr messages]> cleanReq))))
  | VUndef =>
      Throw (TypeError "Cannot destructure property 'tools' of 'chatReq' as it is undefined.")
  | VNull =>
      Throw (TypeError "Cannot destructure property 'tools' of 'chatReq' as it is null.")
  | _ => Throw (TypeError "Cannot read properties of undefined (reading 'map')")
  end.

Definition sendOllamaRequest (w : world) (ollamaReq : value) : M ollama_response :=
  emit (Fetch (OLLAMA_URL ++ str "/api/chat")
          [(str "Content-Type", str "application/json")] ollamaReq);;
  response ← await (ollama w ollamaReq);
  if negb (ok (ollama_status response))
  then lift (Throw (APIError (str "Ollama request failed: "
                                ++ N_to_jsstring (ollama_status response))
                      (ollama_status response)))
  else mret response.

(** The body of the [try] for one line: the accumulated text afterwards,
    and whether [break] was reached. *)
Definition line_step (accumulatedContent line : jsstring) : result (jsstring * bool) :=
  parsed ← JSON.parse line;
  message ← destructure "message" "JSON.parse(...)" parsed;
  done ← destructure "done" "JSON.parse(...)" parsed;
  let content := get_opt "content" message in
  accumulatedContent ←
    (if ToBoolean content
     then text ← ToString content; Ok (accumulatedContent ++ text)
     else Ok accumulatedContent);
  Ok (accumulatedContent, ToBoolean done).

(** The [for] loop; a line whose step throws is logged and passed over. *)
Fixpoint accumulate (accumulatedContent : jsstring) (lines : list jsstring) : jsstring :=
  match lines with
  | [] => accumulatedContent
  | line :: rest =>
      match line_step accumulatedContent line with
      | Ok (accumulatedContent', true) => accumulatedContent'
      | Ok (accumulatedContent', false) => accumulate accumulatedContent' rest
      | Throw _ => accumulate accumulatedContent rest
      end
  end.

(** [accumulatedContent.match(...)] with the pattern [<think>] followed by a
    greedy dot-all group: the group of the leftmost match, which runs to the
    end of the text. *)
Definition thinkMatch (accumulatedContent : jsstring) : option jsstring :=
  (fun i => drop (i + 7) accumulatedContent) <$> indexOf "<think>" accumulatedContent.

(** The value [extractThoughtContent] returns, from the accumulated text. *)
Definition thought (accumulatedContent : jsstring) : jsstring :=
  match thinkMatch accumulatedContent with
  | Some group => trim group ++ str "</think>"
  | None => []
  end.

(** [rawResponse.split('\n').filter(Boolean)] *)
Definition lines_of (rawResponse : jsstring) : list jsstring :=
  filter (fun line => line ≠ []) (split 10 rawResponse).

Definition extractThoughtContent (response : ollama_response) : M jsstring :=
  rawResponse ← await (ollama_text response);
  mret (thought (accumulate [] (lines_of rawResponse))).

Definition processOllamaRequest (w : world) (chatReq : value) : M jsstring :=
  ollamaReq ← lift (prepareOllamaRequest chatReq);
  response ← sendOllamaRequest w ollamaReq;
  extractThoughtContent response.

(** [[...x]] for a parsed value: the elements of an array, the code points
    of a string; nothing else is iterable. *)
Fixpoint codePoints (s : jsstring) : list value :=
  match s with
  | [] => []
  | c :: r =>
      match r with
      | d :: r' =>
          if (55296 <=? c) && (c <=? 56319) && (56320 <=? d) && (d <=? 57343)
          then VStr [c; d] :: codePoints r'
          else VStr [c] :: codePoints r
      | [] => [VStr [c]]
      end
  end.

Definition spread (v : value) : result (list value) :=
  match v with
  | VArr l => Ok l
  | VStr s => Ok (codePoints s)
  | _ => Throw (TypeError "chatReq.messages is not iterable")
  end.

Definition prepareOpenRouterRequest (chatReq : value) (thoughtContent : jsstring)
  : result value :=
  match chatReq with
  | VObj o =>
      messages ← spread (default VUndef (o !! str "messages"));
      Ok (VObj (<[str "messages" :=
                    VArr (messages
                            ++ (if bool_decide (thoughtContent = []) then []
                                else [VObj (<[str "role" := VStr "assistant"]>
                                              (<[str "content" := VStr thoughtContent]> ∅))]))]>
                  (<[str "model" := VStr CLAUDE_MODEL]> o)))
  | VUndef => Throw (TypeError "Cannot read properties of undefined (reading 'messages')")
  | VNull => Throw (TypeError "Cannot read properties of null (reading 'messages')")
  | _ => Throw (TypeError "chatReq.messages is not iterable")
  end.

(** The relay between its start and its end. [heartbeat] tells whether the
    interval is still set, [settled] how the [try]/[finally] ended. *)
Record relay := {
  written : list event;
  heartbeat : bool;
  settled : option (result unit)
}.

Definition heartbeat_frame : jsstring := str ": heartbeat" ++ [10; 10].

(** After the three headers, [getReader] and [setInterval]. *)
Definition relay_start : relay := {|
  written := [SetHeader "Content-Type" "text/event-stream";
              SetHeader "Cache-Control" "no-cache";
              SetHeader "Connection" "keep-alive";
              SetInterval 15000];
  heartbeat := true;
  settled := None
|}.

(** The [finally] block. *)
Definition relay_finally (st : relay) (r : result unit) : relay := {|
  written := written st ++ [ClearInterval; End];
  heartbeat := false;
  settled := Some r
|}.

Definition relay_step (st : relay) (ev : stream_event) : relay :=
  match ev with
  | Tick =>
      if heartbeat st
      then {| written := written st ++ [Write heartbeat_frame];
              heartbeat := heartbeat st; settled := settled st |}
      else st
  | ClientClose => st
  | Chunk value =>
      match settled st with
      | None => {| written := written st ++ [Write (TextDecoder.decode value)];
                   heartbeat := heartbeat st; settled := settled st |}
      | Some _ => st
      end
  | EndOfStream =>
      match settled st with
      | None => relay_finally st (Ok tt)
      | Some _ => st
      end
  | ReadError message =>
      match settled st with
      | None => relay_finally st (Throw (JSError "TypeError" message))
      | Some _ => st
      end
  end.

Definition relay_run (st : relay) (evs : list stream_event) : relay :=
  foldl relay_step st evs.

(** With a body, the relay from its start to wherever the schedule of the
    body takes it. Without one, [response.body.getReader()] throws after
    the three headers have been set and before the interval is. *)
Definition handleStreamingResponse (response : openrouter_response) : M unit :=
  if null_body_status (openrouter_status response)
  then Run [SetHeader "Content-Type" "text/event-stream";
            SetHeader "Cache-Control" "no-cache";
            SetHeader "Connection" "keep-alive"]
         (Some (Throw (TypeError "Cannot read properties of null (reading 'getReader')")))
  else
    let st := relay_run relay_start (openrouter_body response) in
    Run (written st) (settled st).

Definition handleOpenRouterRequest (w : world) (chatReq : value)
    (thoughtContent : jsstring) (req : request) : M unit :=
  openrouterKey ← lift (getOpenRouterKey req);
  openrouterReq ← lift (prepareOpenRouterRequest chatReq thoughtContent);
  emit (Fetch OPENROUTER_URL
          [(str "Content-Type", str "application/json");
           (str "Authorization", str "Bearer " ++ openrouterKey);
           (str "HTTP-Referer", str "https://github.com/cursor-ai");
           (str "X-Title", str "Cursor AI")]
          openrouterReq);;
  response ← await (openrouter w openrouterKey openrouterReq);
  if negb (ok (openrouter_status response))
  then lift (Throw (APIError (str "OpenRouter request failed: "
                                ++ N_to_jsstring (openrouter_status response))
                      (openrouter_status response)))
  else
    stream ← lift (get "stream" chatReq);
    if ToBoolean stream
    then handleStreamingResponse response
    else payload ← await (openrouter_json response); emit (Json payload).

(** [res.headersSent]: the status line and the headers go out with the
    first [json], [write] or [end] on the response. [res] is the response
    as the calls so far have left it. *)
Definition headersSent (res : list event) : bool :=
  existsb (λ ev, match ev with Json _ | Write _ | End => true | _ => false end) res.

Definition ERR_HTTP_HEADERS_SENT : error :=
  JSError "Error" (str "Cannot set headers after they are sent to the client").

(** [res.status(statusCode).json(...)]. On a response that has gone out
    [status] still sets the field, and [json] throws when Express sets the
    content type: [ERR_HTTP_HEADERS_SENT]. *)
Definition handleError (error : error) (res : list event) : M unit :=
  let statusCode := match error with
                    | APIError _ statusCode => statusCode
                    | JSError _ _ => 500
                    end in
  let message := match error with
                 | APIError message _ | JSError _ message => message
                 end in
  emit (Status statusCode);;
  if headersSent res
  then lift (Throw ERR_HTTP_HEADERS_SENT)
  else emit (Json (VObj {[ str "error" :=
                             VStr (if bool_decide (message = [])
                                   then str "Internal server error" else message) ]})).

(** [chatReq.messages[chatReq.messages.length - 1]] *)
Definition lastMessage (chatReq : value) : result value :=
  messages ← get "messages" chatReq;
  match messages with
  | VArr l => Ok (default VUndef (last l))
  | _ => Ok VUndef
  end.

(** The [try] block of the handler. *)
Definition attempt (w : world) (req : request) : M unit :=
  chatReq ← lift (validateRequest req);
  lastMessage ← lift (lastMessage chatReq);
  let isToolMessage := strict_eq_str (get_opt "role" lastMessage) "tool" in
  thoughtContent ← (if negb isToolMessage
                    then processOllamaRequest w chatReq
                    else mret []);
  handleOpenRouterRequest w chatReq thoughtContent req.

(** [try { m } catch (error) { handleError(error, res) }], where the calls
    of [m] have been made on [res]. *)
Definition guarded (m : M unit) : M unit :=
  try_catch m (λ error, handleError error (calls m)).

(** [app.post('/v1/chat/completions', async (req, res) => ...)] *)
Definition handler (w : world) (req : request) : M unit :=
  guarded (attempt w req).

(** ** The vocabulary of the statements *)

(** [pat] occurs in [s] at position [i]. *)
Definition occurs_at (pat s : jsstring) (i : nat) : Prop :=
  ∃ pre post, s = pre ++ pat ++ post ∧ length pre = i.

(** [t] is [s] without the first occurrence of [pat]; it is [s] when [pat]
    does not occur. *)
Inductive removes_first (pat s : jsstring) : jsstring → Prop :=
| removes_none :
    (∀ i, ¬ occurs_at pat s i) → removes_first pat s s
| removes_at pre post :
    s = pre ++ pat ++ post →
    (∀ j, occurs_at pat s j → (length pre ≤ j)%nat) →
    removes_first pat s (pre ++ post).

(** What [express.json()] leaves in [req.body]: a JSON object or array. *)
Definition payload (v : value) : Prop :=
  match v with
  | VObj _ | VArr _ => True
  | _ => False
  end.

Definition invalid_request : error :=
  APIError "Invalid request: messages array is required" 400.

Definition example_request : request := {|
  body := VObj (<[str "messages" :=
                    VArr [VObj (<[str "role" := VStr "user"]>
                                  (<[str "content" := VStr "hi"]> ∅))]]>
                  (<[str "temperature" := VNum (Float64.of_decimal false 7 (-1))]> ∅));
  authorization := None
|}.

Definition missing_key : error := APIError "Missing OpenRouter API key" 401.

(** [{ role: "assistant", content: thoughtContent }] *)
Definition assistant_message (thoughtContent : jsstring) : value :=
  VObj (<[str "role" := VStr "assistant"]> (<[str "content" := VStr thoughtContent]> ∅)).

(** The status code an error carries, if it carries one. *)
Definition carried_status (e : error) : option N :=
  match e with
  | APIError _ statusCode => Some statusCode
  | JSError _ _ => None
  end.

Definition error_message (e : error) : jsstring :=
  match e with
  | APIError message _ | JSError _ message => message
  end.

(** [{ error: error.message || 'Internal server error' }] *)
Definition error_body (e : error) : value :=
  VObj {[ str "error" :=
            VStr (if bool_decide (error_message e = [])
                  then str "Internal server error" else error_message e) ]}.

(** The status line the caller receives: the status in force when the
    response goes out; [None] as long as nothing has gone out. *)
Fixpoint status_sent (statusCode : N) (res : list event) : option N :=
  match res with
  | [] => None
  | Status statusCode' :: res' => status_sent statusCode' res'
  | Json _ :: _ | Write _ :: _ | End :: _ => Some statusCode
  | _ :: res' => status_sent statusCode res'
  end.

Definition response_status (res : list event) : option N := status_sent 200 res.

(** The statuses under which a response goes out without a body, whatever
    is handed to [json]: Express empties the body under 204, 205 and 304,
    and the HTTP server of the runtime sends none under 1xx, 204 and 304. *)
Definition bodiless (statusCode : N) : bool :=
  (statusCode <? 200) || bool_decide (statusCode ∈ [204; 205; 304]).

(** The JSON body the caller receives, when [json] is what sends the
    response: the payload of the call, unless the status in force lets no
    body through. *)
Fixpoint json_sent (statusCode : N) (res : list event) : option value :=
  match res with
  | [] => None
  | Status statusCode' :: res' => json_sent statusCode' res'
  | Json payload :: _ => if bodiless statusCode then None else Some payload
  | Write _ :: _ | End :: _ => None
  | _ :: res' => json_sent statusCode res'
  end.

Definition response_json (res : list event) : option value := json_sent 200 res.

(** How a computation can end once the response has gone out: not with an
    error that carries a status code. *)
Definition no_status {A} (o : option (result A)) : Prop :=
  match o with
  | Some (Throw e) => carried_status e = None
  | _ => True
  end.

(** The events on which the read loop is left: the body ends, a read
    fails. *)
Definition leaves (ev : stream_event) : Prop :=
  ev = EndOfStream ∨ ∃ message, ev = ReadError message.

#[local] Instance leaves_dec (ev : stream_event) : Decision (leaves ev).
Proof.
  destruct ev; [right|left|left|right|right]; unfold leaves;
    try (intros [?|[? ?]]; done); eauto.
Defined.

Definition running (st : relay) : Prop := heartbeat st = true ∧ settled st = None.
Definition stopped (st : relay) : Prop := heartbeat st = false ∧ settled st ≠ None.

Definition is_fetch (ev : event) : Prop :=
  match ev with
  | Fetch _ _ _ => True
  | _ => False
  end.

#[local] Instance is_fetch_dec (ev : event) : Decision (is_fetch ev).
Proof. destruct ev; simpl; apply _. Defined.

(** The [fetch] calls among the calls issued. *)
Definition fetches (l : list event) : list event := filter is_fetch l.

Definition ollama_fetch (ollamaReq : value) : event :=
  Fetch (OLLAMA_URL ++ str "/api/chat")
    [(str "Content-Type", str "application/json")] ollamaReq.

Definition openrouter_fetch (openrouterKey : jsstring) (openrouterReq : value) : event :=
  Fetch OPENROUTER_URL
    [(str "Content-Type", str "application/json");
     (str "Authorization", str "Bearer " ++ openrouterKey);
     (str "HTTP-Referer", str "https://github.com/cursor-ai");
     (str "X-Title", str "Cursor AI")]
    openrouterReq.

(** The last message of the conversation has role [tool]. *)
Definition tool_turn (chatReq : value) : Prop :=
  ∃ m, lastMessage chatReq = Ok m ∧ get_opt "role" m = VStr (str "tool").

Definition unauthorized : list event :=
  [Status 401; Json (VObj {[ str "error" := VStr (str "Missing OpenRouter API key") ]})].

(** A streaming request, and a world in which the upstream body breaks
    after its first chunk. *)
Definition stream_request : request := {|
  body := VObj (<[str "messages" :=
                    VArr [VObj (<[str "role" := VStr (str "user")]>
                                  (<[str "content" := VStr (str "hi")]> ∅))]]>
                  (<[str "stream" := VBool true]> ∅));
  authorization := Some (str "Bearer sk-or-123")
|}.

Definition broken_stream_world : world := {|
  ollama := λ _, Reply {| ollama_status := 200; ollama_text := Reply [] |};
  openrouter := λ _ _,
    Reply {| openrouter_status := 200;
             openrouter_json := Failed "TypeError" (str "Body is unusable");
             openrouter_body := [Chunk (str "data: a"); ReadError (str "terminated")] |}
|}.

(** A world in which the local endpoint answers with an empty body and the
    upstream endpoint cannot be reached. *)
Definition quiet_world : world := {|
  ollama := λ _, Reply {| ollama_status := 200; ollama_text := Reply [] |};
  openrouter := λ _ _, Failed "TypeError" (str "fetch failed")
|}.

(** A conversation that ends with the result of a tool call. *)
Definition tool_request : request := {|
  body := VObj (<[str "messages" :=
                    VArr [VObj (<[str "role" := VStr (str "user")]>
                                  (<[str "content" := VStr (str "list the files")]> ∅));
                          VObj (<[str "role" := VStr (str "tool")]>
                                  (<[str "content" := VStr (str "a.txt")]> ∅))]]>
                  (<[str "stream" := VBool false]> ∅));
  authorization := Some (str "Bearer sk-or-123")
|}.

Definition blank (ws : jsstring) : Prop := Forall (λ c, isWhiteSpace c = true) ws.

(** [t] is [s] without the white space at its two ends. *)
Definition trimmed_of (s t : jsstring) : Prop :=
  ∃ ws1 ws2,
    s = ws1 ++ t ++ ws2 ∧ blank ws1 ∧ blank ws2
    ∧ (∀ c, head t = Some c → isWhiteSpace c = false)
    ∧ (∀ c, last t = Some c → isWhiteSpace c = false).

Definition think_open : jsstring := str "<think>".
Definition think_close : jsstring := str "</think>".

(** The fragment as the specification words it: nothing when the text has
    no opening tag; otherwise what follows the first opening tag, without
    the white space at its ends, followed by the closing tag. *)
Inductive fragment_of (text : jsstring) : jsstring → Prop :=
| fragment_empty :
    (∀ i, ¬ occurs_at think_open text i) → fragment_of text []
| fragment_after pre post core :
    text = pre ++ think_open ++ post →
    (∀ j, occurs_at think_open text j → (length pre ≤ j)%nat) →
    trimmed_of post core →
    fragment_of text (core ++ think_close).

(** A line that parses as JSON, and its value. *)
Definition parses (line : jsstring) : option value :=
  match JSON.parse line with
  | Ok v => Some v
  | Throw _ => None
  end.

(** The [message.content] delta of a parsed line; a line without one adds
    nothing. *)
Definition content_of (v : value) : jsstring :=
  match get_opt "content" (get_opt "message" v) with
  | VStr s => s
  | _ => []
  end.

Definition done_true (v : value) : bool :=
  match get_opt "done" v with
  | VBool true => true
  | _ => false
  end.

(** The parsed lines up to the first one with [done = true], that one
    included. *)
Fixpoint until_done (vs : list value) : list value :=
  match vs with
  | [] => []
  | v :: vs' => if done_true v then [v] else v :: until_done vs'
  end.

Definition read_accumulated (rawResponse : jsstring) : jsstring :=
  concat (content_of <$> until_done (omap parses (split 10 rawResponse))).

(** The typing of the local endpoint's protocol: in a line that parses, the
    content delta, when there is one, is a string, and [done], when there is
    one, is a boolean. *)
Definition well_typed (v : value) : bool :=
  match get_opt "content" (get_opt "message" v) with
  | VUndef | VStr _ => true
  | _ => false
  end
  && match get_opt "done" v with
     | VUndef | VBool _ => true
     | _ => false
     end.

Definition line_conforms (line : jsstring) : bool :=
  match JSON.parse line with
  | Ok v => well_typed v
  | Throw _ => true
  end.

Definition conforms (rawResponse : jsstring) : bool :=
  forallb line_conforms (split 10 rawResponse).

(** The text [s], each apostrophe standing for a double quote. *)
Definition json_text (s : string) : jsstring :=
  (λ c, if c =? 39 then 34 else c) <$> str s.

(** The two lines of the worked example. *)
Definition worked_example : jsstring :=
  json_text "{'message':{'content':'<think>ab'},'done':false}"
    ++ [10]
    ++ json_text "{'message':{'content':'cd</think>xy'},'done':true}".

(** *** For the further properties *)

(** The calls on the response and on the timer: everything but the
    [fetch]es. *)
Definition is_response_call (ev : event) : Prop :=
  match ev with
  | Fetch _ _ _ => False
  | _ => True
  end.

#[local] Instance is_response_call_dec (ev : event) : Decision (is_response_call ev).
Proof. destruct ev; simpl; apply _. Defined.

Definition response_calls (l : list event) : list event := filter is_response_call l.

Definition is_timer_call (ev : event) : Prop :=
  match ev with
  | SetInterval _ | ClearInterval => True
  | _ => False
  end.

#[local] Instance is_timer_call_dec (ev : event) : Decision (is_timer_call ev).
Proof. destruct ev; simpl; apply _. Defined.

Definition timer_calls (l : list event) : list event := filter is_timer_call l.

(** What the relay issues after its start, read along the schedule: one
    write per chunk and per tick, in their order, up to the first event that
    leaves the loop, where the interval is cleared and the response ended. *)
Fixpoint relay_writes (evs : list stream_event) : list event :=
  match evs with
  | [] => []
  | Chunk value :: evs' => Write (TextDecoder.decode value) :: relay_writes evs'
  | Tick :: evs' => Write heartbeat_frame :: relay_writes evs'
  | ClientClose :: evs' => relay_writes evs'
  | EndOfStream :: _ | ReadError _ :: _ => [ClearInterval; End]
  end.








(** The local step of a validated request is over: it has issued the calls
    [pre] and left the fragment [thoughtContent]. On a tool turn it issues
    nothing and leaves the empty fragment. *)
Definition local_step_done (w : world) (chatReq : value) (pre : list event)
    (thoughtContent : jsstring) : Prop :=
  (tool_turn chatReq ∧ pre = [] ∧ thoughtContent = [])
  ∨ (¬ tool_turn chatReq
     ∧ processOllamaRequest w chatReq = Run pre (Some (Ok thoughtContent))).

(** A status code that [res.status] and the HTTP server of the runtime
    accept: three digits, as every status that [fetch] delivers. *)
Definition http_status (statusCode : N) : Prop := 100 ≤ statusCode ∧ statusCode ≤ 999.

(** What the caller receives when the Error Mapper has answered an error
    [e] that carries the status [statusCode]: the body, unless the status
    lets none through. *)
Definition error_received (statusCode : N) (e : error) : option value :=
  if bodiless statusCode then None else Some (error_body e).

(** The three headers of an event stream. *)
Definition stream_headers : list event :=
  [SetHeader "Content-Type" "text/event-stream";
   SetHeader "Cache-Control" "no-cache";
   SetHeader "Connection" "keep-alive"].

(** What [response.body.getReader()] throws on a response without a body. *)
Definition no_reader : error :=
  TypeError "Cannot read properties of null (reading 'getReader')".

(** [new APIError(`Ollama request failed: ${response.status}`, response.status)] *)
Definition ollama_failed (status : N) : error :=
  APIError (str "Ollama request failed: " ++ N_to_jsstring status) status.

(** [new APIError(`OpenRouter request failed: ${response.status}`, response.status)] *)
Definition openrouter_failed (status : N) : error :=
  APIError (str "OpenRouter request failed: " ++ N_to_jsstring status) status.

(** A line that ends the loop whatever has been accumulated: it parses to
    an object whose [done] is truthy and whose content delta, if any, is not
    an object or an array (so that appending it cannot throw). *)
Definition final_line (line : jsstring) : bool :=
  match JSON.parse line with
  | Ok (VObj o) =>
      ToBoolean (default VUndef (o !! str "done"))
      && match get_opt "content" (default VUndef (o !! str "message")) with
         | VObj _ | VArr _ => false
         | _ => true
         end
  | _ => false
  end.

(** The ways in which the [try] block can stand, by its outcome and its
    calls on the response: it has sent one JSON body; it has thrown with the
    response untouched; it waits, for ever, for an endpoint, with the
    response untouched; it has thrown for want of a body to relay, with the
    three headers set. *)
Definition one_json (m : M unit) : Prop :=
  ∃ payload, outcome m = Some (Ok tt) ∧ response_calls (calls m) = [Json payload].

Definition quiet_error (m : M unit) : Prop :=
  ∃ e, outcome m = Some (Throw e) ∧ response_calls (calls m) = [].

Definition waiting (m : M unit) : Prop :=
  outcome m = None ∧ response_calls (calls m) = [].

Definition no_body (m : M unit) : Prop :=
  outcome m = Some (Throw no_reader) ∧ response_calls (calls m) = stream_headers.

(** A world in which no [fetch] and no reading of a body as text or JSON
    hangs. *)
Definition responsive (w : world) : Prop :=
  (∀ ollamaReq, ollama w ollamaReq ≠ Pending)
  ∧ (∀ ollamaReq response,
       ollama w ollamaReq = Reply response → ollama_text response ≠ Pending)
  ∧ (∀ key openrouterReq, openrouter w key openrouterReq ≠ Pending)
  ∧ (∀ key openrouterReq response,
       openrouter w key openrouterReq = Reply response →
       openrouter_json response ≠ Pending).

(** A block that hands the response to the relay: after calls that leave
    the response alone, its calls and its outcome are the relay's, for some
    schedule of the upstream body. *)
Definition relays (m : M unit) : Prop :=
  ∃ pre evs,
    response_calls pre = []
    ∧ calls m = pre ++ written (relay_run relay_start evs)
    ∧ outcome m = settled (relay_run relay_start evs).

(** The shape [{ role, content }] of a message for the local endpoint. *)
Definition local_message (m : value) : Prop :=
  ∃ role content,
    m = VObj (<[str "role" := role]> (<[str "content" := content]> ∅))
    ∧ role ≠ VStr (str "tool").

(** A world whose local endpoint is overloaded. *)
Definition busy_local_world : world := {|
  ollama := λ _, Reply {| ollama_status := 503; ollama_text := Reply [] |};
  openrouter := λ _ _, Failed "TypeError" (str "fetch failed")
|}.

(** A world whose upstream endpoint answers 304. *)
Definition not_modified_world : world := {|
  ollama := λ _, Reply {| ollama_status := 200; ollama_text := Reply [] |};
  openrouter := λ _ _,
    Reply {| openrouter_status := 304;
             openrouter_json := Failed "SyntaxError" (str "Unexpected end of JSON input");
             openrouter_body := [] |}
|}.

(** A world whose upstream endpoint refuses the request. *)
Definition rate_limited_world : world := {|
  ollama := λ _, Reply {| ollama_status := 200; ollama_text := Reply [] |};
  openrouter := λ _ _,
    Reply {| openrouter_status := 429;
             openrouter_json := Reply VNull;
             openrouter_body := [] |}
|}.

(** A world in which both endpoints answer: the local one with a thought,
    the upstream one with a completion, whole or in two chunks. *)
Definition completion : value :=
  VObj {[ str "id" := VStr (str "gen-1") ]}.

Definition answering_world : world := {|
  ollama := λ _,
    Reply {| ollama_status := 200;
             ollama_text := Reply worked_example |};
  openrouter := λ _ _,
    Reply {| openrouter_status := 200;
             openrouter_json := Reply completion;
             openrouter_body := [Chunk (str "data: a"); Tick; Chunk (str "data: b");
                                 EndOfStream] |}
|}.

(** The worked request with an [Authorization] header. *)
Definition bearer_request : request := {|
  body := body example_request;
  authorization := Some (str "Bearer " ++ str "sk-or-123")
|}.

(** ** The runtime model at work *)

Example Number_toString_examples :
  Float64.to_string (Float64.of_decimal false 1 (-1)) = str "0.1"
  ∧ Float64.to_string (Float64.of_decimal true 15 (-1)) = str "-1.5"
  ∧ Float64.to_string (Float64.of_decimal false 4883583458 0) = str "4883583458"
  ∧ Float64.to_string (Float64.of_decimal false 9007199254740993 0)
    = str "9007199254740992"
  ∧ Float64.to_string (Float64.of_decimal false 1 21) = str "1e+21"
  ∧ Float64.to_string (Float64.of_decimal false 123 (-9)) = str "1.23e-7".
Proof. repeat split; by vm_compute. Qed.

Example JSON_parse_examples :
  JSON.parse (json_text "{'done':true, 'n':[1, null]}")
  = Ok (VObj (<[str "done" := VBool true]>
                (<[str "n" := VArr [VNum (Float64.of_decimal false 1 0); VNull]]> ∅)))
  ∧ JSON.parse (json_text "'a\u0041\n'") = Ok (VStr [97; 65; 10])
  ∧ (∃ e, JSON.parse (json_text "{'done':tru") = Throw e)
  ∧ (∃ e, JSON.parse [] = Throw e)
  ∧ (∃ e, JSON.parse (json_text "01") = Throw e).
Proof. repeat split; try (eexists; by vm_compute); by vm_compute. Qed.

Example TextDecoder_examples :
  TextDecoder.decode [100; 97; 116; 97; 58; 32; 195; 169] = str "data: " ++ [233]
  ∧ TextDecoder.decode [240; 159; 152; 128] = [55357; 56832]
  ∧ TextDecoder.decode [239; 187; 191; 97] = [97]
  ∧ TextDecoder.decode [195] = [65533]
  ∧ TextDecoder.decode [169] = [65533]
  ∧ TextDecoder.decode [226; 130; 97] = [65533; 97]
  ∧ TextDecoder.decode [237; 160; 128] = [65533; 65533; 65533]
  ∧ TextDecoder.decode [192; 128] = [65533; 65533].
Proof. repeat split; by vm_compute. Qed.

Example ToString_examples :
  ToString (VArr [VNum (Float64.of_decimal false 25 2); VNull; VBool true; VObj ∅;
                  VArr [VStr (str "x")]])
  = Ok (str "2500,,true,[object Object],x")
  ∧ (∃ e, ToString (VObj {[ str "toString" := VNull ]}) = Throw e).
Proof. split; [by vm_compute|eexists; by vm_compute]. Qed.

(** ** Facts about the string functions *)

Section Strings.

Implicit Types (pat s t pre post : jsstring).

Lemma startsWith_app pat post : startsWith pat (pat ++ post) = true.
Proof.
  induction pat as [|p pat IH]; [done|].
  simpl. by rewrite N.eqb_refl.
Qed.

Lemma startsWith_true pat s : startsWith pat s = true → ∃ post, s = pat ++ post.
Proof.
  revert s. induction pat as [|p pat IH]; intros s H.
  - by exists s.
  - destruct s as [|c s]; [done|]. simpl in H.
    apply andb_true_iff in H as [Hc Hs]. apply N.eqb_eq in Hc as ->.
    destruct (IH _ Hs) as [post ->]. by exists post.
Qed.

Lemma occurs_at_0 pat s : occurs_at pat s 0 ↔ startsWith pat s = true.
Proof.
  split.
  - intros (pre & post & -> & Hl). destruct pre; [|done].
    simpl. apply startsWith_app.
  - intros [post ->]%startsWith_true. by exists [], post.
Qed.

Lemma occurs_at_S pat c s i : occurs_at pat (c :: s) (S i) ↔ occurs_at pat s i.
Proof.
  split.
  - intros (pre & post & E & Hl). destruct pre as [|c' pre]; [done|].
    simpl in *. exists pre, post. split; [congruence|lia].
  - intros (pre & post & -> & Hl). exists (c :: pre), post. split; [done|simpl; lia].
Qed.

Lemma occurs_at_nil pat i : occurs_at pat [] (S i) → False.
Proof. intros (pre & post & E & Hl). by destruct pre. Qed.

Lemma indexOf_cons pat c s :
  startsWith pat (c :: s) = false → indexOf pat (c :: s) = S <$> indexOf pat s.
Proof. intros H. simpl indexOf. by rewrite H. Qed.

Lemma indexOf_occurs pat s i : indexOf pat s = Some i → occurs_at pat s i.
Proof.
  revert i. induction s as [|c s IH]; intros i.
  - simpl. destruct (startsWith pat []) eqn:E; [|done].
    intros [= <-]. by apply occurs_at_0.
  - destruct (startsWith pat (c :: s)) eqn:E.
    + simpl indexOf. rewrite E. intros [= <-]. by apply occurs_at_0.
    + rewrite indexOf_cons by done.
      destruct (indexOf pat s) as [k|]; [|done].
      intros [= <-]. by apply occurs_at_S, IH.
Qed.

Lemma indexOf_least pat s i j :
  indexOf pat s = Some i → occurs_at pat s j → (i ≤ j)%nat.
Proof.
  revert i j. induction s as [|c s IH]; intros i j.
  - simpl. destruct (startsWith pat []) eqn:E; [|done].
    intros [= <-] _. lia.
  - destruct (startsWith pat (c :: s)) eqn:E.
    + simpl indexOf. rewrite E. intros [= <-] _. lia.
    + rewrite indexOf_cons by done.
      destruct (indexOf pat s) as [k|] eqn:Ek; [|done].
      intros [= <-] Hj. destruct j as [|j].
      * apply occurs_at_0 in Hj. congruence.
      * apply occurs_at_S in Hj. specialize (IH k j eq_refl Hj). lia.
Qed.

Lemma occurs_indexOf pat s j : occurs_at pat s j → is_Some (indexOf pat s).
Proof.
  revert j. induction s as [|c s IH]; intros j Hj.
  - destruct j; [|by apply occurs_at_nil in Hj].
    apply occurs_at_0 in Hj. simpl. by rewrite Hj.
  - destruct (startsWith pat (c :: s)) eqn:E.
    + simpl indexOf. by rewrite E.
    + rewrite indexOf_cons by done. destruct j as [|j].
      * apply occurs_at_0 in Hj. congruence.
      * apply occurs_at_S, IH in Hj as [k ->]. by eexists.
Qed.

(** [indexOf] finds the first occurrence. *)
Lemma indexOf_Some pat s i :
  indexOf pat s = Some i ↔ occurs_at pat s i ∧ ∀ j, occurs_at pat s j → (i ≤ j)%nat.
Proof.
  split.
  - intros H. split; [by apply indexOf_occurs|].
    intros j. by apply indexOf_least.
  - intros [Hi Hmin]. destruct (occurs_indexOf pat s i Hi) as [k Hk].
    pose proof (indexOf_least pat s k i Hk Hi).
    pose proof (Hmin k (indexOf_occurs pat s k Hk)).
    rewrite Hk. f_equal. lia.
Qed.

Lemma indexOf_None pat s : indexOf pat s = None ↔ ∀ i, ¬ occurs_at pat s i.
Proof.
  split.
  - intros H i [k Hk]%occurs_indexOf. congruence.
  - intros H. destruct (indexOf pat s) as [i|] eqn:E; [|done].
    by apply indexOf_occurs, H in E.
Qed.

Lemma take_drop_occurrence pat pre post :
  take (length pre) (pre ++ pat ++ post)
    ++ drop (length pre + length pat) (pre ++ pat ++ post) = pre ++ post.
Proof.
  rewrite take_app_length. f_equal.
  rewrite <- drop_drop, drop_app_length. apply drop_app_length.
Qed.

Lemma replace_with_empty_removes_first pat s :
  removes_first pat s (replace_with_empty pat s).
Proof.
  unfold replace_with_empty. destruct (indexOf pat s) as [i|] eqn:E.
  - apply indexOf_Some in E as [(pre & post & -> & <-) Hmin].
    rewrite take_drop_occurrence. by eapply removes_at.
  - apply removes_none. by apply indexOf_None.
Qed.

Lemma replace_with_empty_nil pat s :
  pat ≠ [] → replace_with_empty pat s = [] ↔ s = [] ∨ s = pat.
Proof.
  intros Hpat. unfold replace_with_empty.
  destruct (indexOf pat s) as [i|] eqn:E.
  - apply indexOf_Some in E as [(pre & post & -> & <-) Hmin].
    rewrite take_drop_occurrence. split.
    + intros [-> ->]%app_eq_nil. right. by rewrite app_nil_r.
    + intros [H|H].
      * apply app_eq_nil in H as [_ [H _]%app_eq_nil]. done.
      * apply (f_equal length) in H. rewrite !length_app in H.
        destruct pre, post; simpl in *; try done; lia.
  - split; [by left|]. intros [H|H]; [done|]. subst s.
    apply indexOf_None with (i := 0%nat) in E. destruct E.
    exists [], []. by rewrite app_nil_r.
Qed.

End Strings.

(** ** Request Validator *)

(** C4. For every inbound payload the validator either returns the payload
    itself, unchanged, or throws the 400 error. It returns the payload
    exactly when the [messages] field is an array with at least one element;
    it throws the 400 error exactly when [messages] is absent, is not an
    array, or is the empty array. Acceptance depends on no other field: two
    payloads with the same [messages] field are accepted or rejected
    together. *)
Theorem validateRequest_spec (req : request) :
  payload (body req) →
  let messages := get_opt "messages" (body req) in
  (validateRequest req = Ok (body req) ∨ validateRequest req = Throw invalid_request)
  ∧ (validateRequest req = Ok (body req) ↔ ∃ m ms, messages = VArr (m :: ms))
  ∧ (validateRequest req = Throw invalid_request
     ↔ messages = VUndef ∨ Array_isArray messages = false ∨ messages = VArr [])
  ∧ (∀ req', payload (body req') →
       get_opt "messages" (body req') = messages →
       (validateRequest req' = Ok (body req') ↔ validateRequest req = Ok (body req))).
Proof.
  assert (∀ r, payload (body r) →
            validateRequest r
            = match get_opt "messages" (body r) with
              | VArr (_ :: _) => Ok (body r)
              | _ => Throw invalid_request
              end) as Hv.
  { intros [b h] Hb. unfold validateRequest. simpl in *.
    destruct b as [| | | | |l|o]; try done; simpl.
    destruct (default VUndef (o !! str "messages")) as [| | | | |[|m ms]|]; done. }
  intros Hp messages. rewrite (Hv req Hp). fold messages.
  repeat split.
  - destruct messages as [| | | | |[|m ms]|]; auto.
  - destruct messages as [| | | | |[|m ms]|]; try done. eauto.
  - intros (m & ms & ->). done.
  - destruct messages as [| | | | |[|m ms]|]; try done; auto.
  - destruct messages as [| | | | |[|m ms]|]; try done; intros [H|[H|H]]; done.
  - rewrite (Hv req' H), H0.
    destruct messages as [| | | | |[|m ms]|]; done.
  - rewrite (Hv req' H), H0.
    destruct messages as [| | | | |[|m ms]|]; done.
Qed.

Lemma validateRequest_spec_witness :
  payload (body example_request)
  ∧ (validateRequest example_request = Ok (body example_request)
     ↔ ∃ m ms, get_opt "messages" (body example_request) = VArr (m :: ms)).
Proof.
  split; [exact I|].
  apply (validateRequest_spec example_request). exact I.
Defined.

(** ** Credential extraction *)

(** C9. The key is the [Authorization] header without the first occurrence
    of ["Bearer "]. The 401 error is thrown exactly when the header is
    absent, empty, or exactly ["Bearer "]; every other header is forwarded
    with that first occurrence removed, whether or not it starts with the
    prefix: a header without the prefix, one with a lowercase prefix, and
    one with the prefix in the middle all pass. *)
Theorem getOpenRouterKey_spec (req : request) :
  (getOpenRouterKey req = Throw missing_key
   ↔ authorization req = None ∨ authorization req = Some []
     ∨ authorization req = Some (str "Bearer "))
  ∧ (∀ header, authorization req = Some header →
       header ≠ [] → header ≠ str "Bearer " →
       ∃ key, getOpenRouterKey req = Ok key ∧ key ≠ []
              ∧ removes_first "Bearer " header key)
  ∧ getOpenRouterKey {| body := body req; authorization := Some (str "sk-or-123") |}
    = Ok (str "sk-or-123")
  ∧ getOpenRouterKey {| body := body req; authorization := Some (str "bearer sk-or-123") |}
    = Ok (str "bearer sk-or-123")
  ∧ getOpenRouterKey {| body := body req; authorization := Some (str "Token Bearer sk Bearer 1") |}
    = Ok (str "Token sk Bearer 1").
Proof.
  assert (str "Bearer " ≠ []) as Hpat by done.
  pose proof (λ s, replace_with_empty_nil (str "Bearer ") s Hpat) as Hnil.
  split; [|split; [|by repeat split]].
  - unfold getOpenRouterKey. destruct (authorization req) as [h|]; simpl.
    + destruct (replace_with_empty (str "Bearer ") h) as [|c k] eqn:E.
      * apply Hnil in E as [->| ->]; (split; [auto|done]).
      * split; [done|]. intros [H|[H|H]]; try done;
          injection H as ->; apply (f_equal length) in E;
          vm_compute in E; done.
    + split; auto.
  - intros h Hh Hne Hne'. unfold getOpenRouterKey. rewrite Hh. simpl.
    destruct (replace_with_empty (str "Bearer ") h) as [|c k] eqn:E.
    + apply Hnil in E as [->| ->]; done.
    + exists (c :: k). rewrite <- E. repeat split; [by rewrite E|].
      apply replace_with_empty_removes_first.
Qed.

(** ** Validated requests *)

Lemma validated_shape (req : request) (chatReq : value) :
  validateRequest req = Ok chatReq →
  body req = chatReq
  ∧ ∃ o m ms, chatReq = VObj o ∧ o !! str "messages" = Some (VArr (m :: ms)).
Proof.
  unfold validateRequest. destruct req as [b h]. simpl.
  destruct b as [| | | | |l|o]; try done. simpl.
  destruct (o !! str "messages") as [[| | | | |[|m ms]|]|] eqn:E; try done.
  intros [= <-]. split; [done|]. by exists o, m, ms.
Qed.

Lemma get_get_opt (k : jsstring) (v r : value) : get k v = Ok r → r = get_opt k v.
Proof. destruct v; simpl; congruence. Qed.

(** ** Building the upstream request *)

(** C6. For a validated request and any thought fragment, the upstream
    request is built without error; its [model] is the fixed upstream model;
    its [messages] are the original messages, followed by one assistant
    message holding the fragment exactly when the fragment is not empty;
    every other field is the original one. *)
Theorem prepareOpenRouterRequest_spec (req : request) (chatReq : value)
    (thoughtContent : jsstring) :
  validateRequest req = Ok chatReq →
  ∃ o messages o',
    chatReq = VObj o
    ∧ o !! str "messages" = Some (VArr messages)
    ∧ prepareOpenRouterRequest chatReq thoughtContent = Ok (VObj o')
    ∧ o' !! str "model" = Some (VStr CLAUDE_MODEL)
    ∧ (thoughtContent = [] → o' !! str "messages" = Some (VArr messages))
    ∧ (thoughtContent ≠ [] →
         o' !! str "messages"
         = Some (VArr (messages ++ [assistant_message thoughtContent])))
    ∧ (∀ k, k ≠ str "model" → k ≠ str "messages" → o' !! k = o !! k).
Proof.
  intros (_ & o & m & ms & -> & Hm)%validated_shape.
  exists o, (m :: ms). eexists. split; [done|]. split; [done|].
  split; [|split; [|split; [|split]]].
  - simpl. rewrite Hm. simpl. reflexivity.
  - rewrite lookup_insert_ne by done. by rewrite lookup_insert_eq.
  - intros ->. rewrite lookup_insert_eq. simpl. by rewrite app_nil_r.
  - intros Hne. rewrite lookup_insert_eq. by rewrite bool_decide_eq_false_2.
  - intros k Hk1 Hk2. by rewrite !lookup_insert_ne.
Qed.

Lemma prepareOpenRouterRequest_spec_witness :
  validateRequest example_request = Ok (body example_request)
  ∧ ∃ o messages o',
    body example_request = VObj o
    ∧ o !! str "messages" = Some (VArr messages)
    ∧ prepareOpenRouterRequest (body example_request) (str "plan</think>") = Ok (VObj o')
    ∧ o' !! str "model" = Some (VStr CLAUDE_MODEL)
    ∧ (str "plan</think>" = [] → o' !! str "messages" = Some (VArr messages))
    ∧ (str "plan</think>" ≠ [] →
         o' !! str "messages"
         = Some (VArr (messages ++ [assistant_message (str "plan</think>")])))
    ∧ (∀ k, k ≠ str "model" → k ≠ str "messages" → o' !! k = o !! k).
Proof.
  split; [reflexivity|].
  apply (prepareOpenRouterRequest_spec example_request). reflexivity.
Defined.

(** ** Building the local request *)

Lemma remap_Ok (m m' : value) :
  remap m = Ok m' →
  get_opt "role" m'
  = (if strict_eq_str (get_opt "role" m) "tool" then VStr "user" else get_opt "role" m)
  ∧ get_opt "content" m' = get_opt "content" m.
Proof.
  unfold remap. destruct (get (str "role") m) as [role|] eqn:Er; [|done].
  destruct (get (str "content") m) as [content|] eqn:Ec; [|done].
  apply get_get_opt in Er, Ec. subst. simpl. intros [= <-]. simpl.
  rewrite lookup_insert_eq. rewrite lookup_insert_ne by done.
  by rewrite lookup_insert_eq.
Qed.

Lemma remap_total (m : value) : m ≠ VNull → m ≠ VUndef → ∃ m', remap m = Ok m'.
Proof. destruct m; intros; try done; unfold remap; simpl; eauto. Qed.

Lemma mapM_remap_Ok (l l' : list value) :
  mapM remap l = Ok l' →
  length l' = length l
  ∧ ∀ i m, l !! i = Some m → ∃ m', l' !! i = Some m' ∧ remap m = Ok m'.
Proof.
  revert l'. induction l as [|x l IH]; intros l'; simpl.
  - intros [= <-]. split; [done|]. intros i m. by rewrite lookup_nil.
  - destruct (remap x) as [y|] eqn:Ex; [|done]. simpl.
    destruct (mapM remap l) as [k|] eqn:Ek; [|done]. simpl.
    intros [= <-]. destruct (IH k eq_refl) as [Hl Hi]. split; [simpl; lia|].
    intros [|i] m; simpl.
    + intros [= <-]. eauto.
    + apply Hi.
Qed.

Lemma mapM_remap_total (l : list value) :
  Forall (λ m, m ≠ VNull ∧ m ≠ VUndef) l → ∃ l', mapM remap l = Ok l'.
Proof.
  induction 1 as [|x l [Hx1 Hx2] _ [k Hk]]; simpl; [by eexists|].
  destruct (remap_total x Hx1 Hx2) as [y ->]. simpl. rewrite Hk. simpl. by eexists.
Qed.


(** ** Asynchronous code: calls and outcomes *)

Section Async.

Context {A B : Type}.
Implicit Types (m : M A) (f : A → M B).

Lemma calls_bind m f :
  calls (m ≫= f)
  = calls m ++ match outcome m with Some (Ok a) => calls (f a) | _ => [] end.
Proof.
  unfold mbind, M_bind. destruct (outcome m) as [[a|e]|]; simpl;
    by rewrite ?app_nil_r.
Qed.

Lemma outcome_bind m f :
  outcome (m ≫= f)
  = match outcome m with
    | Some (Ok a) => outcome (f a)
    | Some (Throw e) => Some (Throw e)
    | None => None
    end.
Proof. unfold mbind, M_bind. by destruct (outcome m) as [[a|e]|]. Qed.

Lemma lift_bind (a : A) f : lift (Ok a) ≫= f = f a.
Proof. unfold mbind, M_bind, lift. simpl. by destruct (f a). Qed.

Lemma throw_bind (e : error) f : lift (Throw e) ≫= f = lift (Throw e).
Proof. done. Qed.

Lemma calls_try_catch m (h : error → M A) :
  calls (try_catch m h)
  = calls m ++ match outcome m with Some (Throw e) => calls (h e) | _ => [] end.
Proof.
  unfold try_catch. destruct (outcome m) as [[a|e]|]; simpl;
    by rewrite ?app_nil_r.
Qed.

End Async.

Lemma mret_bind {A B} (a : A) (f : A → M B) : mret a ≫= f = f a.
Proof. apply (lift_bind a f). Qed.

(** ** Error Mapper: the calls it issues *)

Lemma handleError_run (e : error) (res : list event) :
  headersSent res = false →
  handleError e res
  = Run [Status (default 500 (carried_status e)); Json (error_body e)] (Some (Ok tt)).
Proof. intros H. unfold handleError. rewrite H. by destruct e. Qed.

Lemma handleError_sent (e : error) (res : list event) :
  headersSent res = true →
  handleError e res
  = Run [Status (default 500 (carried_status e))] (Some (Throw ERR_HTTP_HEADERS_SENT)).
Proof. intros H. unfold handleError. rewrite H. by destruct e. Qed.

(** ** Stream Relay *)

Section Relay.

Implicit Types (st : relay) (ev : stream_event) (evs pre post : list stream_event).

Lemma relay_run_app st pre post :
  relay_run st (pre ++ post) = relay_run (relay_run st pre) post.
Proof. apply foldl_app. Qed.

Lemma relay_step_stopped st ev : stopped st → relay_step st ev = st.
Proof.
  intros [Hh Hs]. destruct ev; simpl; rewrite ?Hh; try done;
    by destruct (settled st).
Qed.

Lemma relay_run_stopped st evs : stopped st → relay_run st evs = st.
Proof.
  intros H. induction evs as [|ev evs IH]; [done|].
  simpl. by rewrite relay_step_stopped.
Qed.

Lemma relay_step_leaves st ev :
  running st → leaves ev →
  stopped (relay_step st ev)
  ∧ written (relay_step st ev) = written st ++ [ClearInterval; End].
Proof.
  intros [Hh Hs] [->|[message ->]]; simpl; rewrite Hs; by repeat split.
Qed.

Lemma relay_step_stays st ev :
  running st → ¬ leaves ev → running (relay_step st ev).
Proof.
  intros [Hh Hs] Hev. destruct ev; simpl; rewrite ?Hh, ?Hs; try done.
  - destruct Hev. by left.
  - destruct Hev. right. by eexists.
Qed.

Lemma relay_run_stays st evs :
  running st → Forall (λ ev, ¬ leaves ev) evs → running (relay_run st evs).
Proof.
  intros Hst Hevs. revert st Hst.
  induction Hevs as [|ev evs Hev _ IH]; intros st Hst; [done|].
  simpl. by apply IH, relay_step_stays.
Qed.

Lemma relay_run_cases st evs :
  running st →
  running (relay_run st evs)
  ∨ (stopped (relay_run st evs)
     ∧ ∃ before, written (relay_run st evs) = before ++ [ClearInterval; End]).
Proof.
  revert st. induction evs as [|ev evs IH]; intros st Hst; [by left|].
  simpl. destruct (decide (leaves ev)) as [Hev|Hev].
  - right. destruct (relay_step_leaves st ev Hst Hev) as [Hs Hw].
    rewrite relay_run_stopped by done. eauto.
  - by apply IH, relay_step_stays.
Qed.

Lemma relay_start_running : running relay_start.
Proof. done. Qed.

End Relay.

(** C3, as the code has it. The heartbeat interval is cleared and the
    response ended, with nothing written afterwards, on the two paths out of
    the read loop: the upstream body ends, or a read fails. A caller that
    disconnects is not noticed: the relay has no listener for it, its state
    does not change, and as long as the upstream body neither ends nor fails
    the interval stays set and the next tick still writes a heartbeat. *)
Theorem relay_exit_paths (pre post : list stream_event) (ev : stream_event) :
  let st := relay_run relay_start (pre ++ [ev]) in
  (leaves ev →
     heartbeat st = false
     ∧ settled st ≠ None
     ∧ (∃ before, written st = before ++ [ClearInterval; End])
     ∧ relay_run relay_start (pre ++ ev :: post) = st)
  ∧ (ev = ClientClose → st = relay_run relay_start pre)
  ∧ (Forall (λ e, ¬ leaves e) (pre ++ [ev]) →
     heartbeat st = true
     ∧ settled st = None
     ∧ written (relay_step st Tick) = written st ++ [Write heartbeat_frame]).
Proof.
  intros st. split; [|split].
  - intros Hev. subst st. rewrite relay_run_app. simpl.
    assert (stopped (relay_step (relay_run relay_start pre) ev)
            ∧ ∃ before, written (relay_step (relay_run relay_start pre) ev)
                        = before ++ [ClearInterval; End]) as [Hs Hw].
    { destruct (relay_run_cases relay_start pre relay_start_running) as [Hr|[Hs Hw]].
      - destruct (relay_step_leaves _ ev Hr Hev) as [Hs ->]. eauto.
      - by rewrite relay_step_stopped. }
    destruct Hs as [Hh Hs]. repeat split; try done.
    rewrite (relay_run_app _ pre (ev :: post)). simpl.
    by apply relay_run_stopped.
  - intros ->. subst st. by rewrite relay_run_app.
  - intros H.
    destruct (relay_run_stays relay_start (pre ++ [ev]) relay_start_running H)
      as [Hh Hs].
    fold st in Hh, Hs. repeat split; try done.
    unfold relay_step. by rewrite Hh.
Qed.

Lemma relay_exit_paths_witness :
  let st := relay_run relay_start ([Chunk (str "data: a"); ClientClose; Tick] ++ [EndOfStream]) in
  leaves EndOfStream
  ∧ heartbeat st = false
  ∧ settled st ≠ None
  ∧ (∃ before, written st = before ++ [ClearInterval; End])
  ∧ relay_run relay_start
      ([Chunk (str "data: a"); ClientClose; Tick] ++ EndOfStream :: [Tick; Chunk (str "late")])
    = st.
Proof.
  assert (leaves EndOfStream) as H by (left; reflexivity).
  split; [exact H|].
  apply (relay_exit_paths [Chunk (str "data: a"); ClientClose; Tick]
           [Tick; Chunk (str "late")] EndOfStream).
  exact H.
Defined.

(** C3, as the specification states it, fails: after the caller has disconnected, the
    interval is still set, the next tick writes a heartbeat and the next
    chunk is still forwarded. *)
Lemma relay_disconnect_counterexample :
  let st := relay_run relay_start
              [Chunk (str "data: a"); ClientClose; Tick; Chunk (str "data: b")] in
  heartbeat st = true
  ∧ settled st = None
  ∧ written st
    = written relay_start
        ++ [Write (str "data: a"); Write heartbeat_frame; Write (str "data: b")].
Proof. by repeat split. Qed.

(** ** The outbound requests of the handler *)

Lemma fetches_app (l k : list event) : fetches (l ++ k) = fetches l ++ fetches k.
Proof. apply filter_app. Qed.

Lemma elem_of_fetches (ev : event) (l : list event) :
  ev ∈ fetches l ↔ is_fetch ev ∧ ev ∈ l.
Proof. apply list_elem_of_filter. Qed.

Lemma fetches_relay_step (st : relay) (ev : stream_event) :
  fetches (written (relay_step st ev)) = fetches (written st).
Proof.
  destruct ev; simpl; try done;
    try (destruct (settled st)); try (destruct (heartbeat st)); simpl;
    rewrite ?fetches_app; simpl; by rewrite ?app_nil_r.
Qed.

Lemma fetches_relay_run (st : relay) (evs : list stream_event) :
  fetches (written (relay_run st evs)) = fetches (written st).
Proof.
  revert st. induction evs as [|ev evs IH]; intros st; [done|].
  simpl. by rewrite IH, fetches_relay_step.
Qed.

Lemma fetches_handleStreamingResponse (response : openrouter_response) :
  fetches (calls (handleStreamingResponse response)) = [].
Proof.
  unfold handleStreamingResponse.
  destruct (null_body_status (openrouter_status response)); [done|].
  simpl. by rewrite fetches_relay_run.
Qed.

Lemma fetches_handleError (e : error) (res : list event) :
  fetches (calls (handleError e res)) = [].
Proof.
  destruct (headersSent res) eqn:H.
  - by rewrite handleError_sent.
  - by rewrite handleError_run.
Qed.

Lemma calls_emit_bind {B} (ev : event) (k : M B) : calls (emit ev;; k) = ev :: calls k.
Proof. by rewrite calls_bind. Qed.

Lemma outcome_emit_bind {B} (ev : event) (k : M B) : outcome (emit ev;; k) = outcome k.
Proof. by rewrite outcome_bind. Qed.

Lemma calls_sendOllamaRequest (w : world) (ollamaReq : value) :
  calls (sendOllamaRequest w ollamaReq) = [ollama_fetch ollamaReq].
Proof.
  unfold sendOllamaRequest. rewrite calls_emit_bind. f_equal.
  destruct (ollama w ollamaReq) as [response|name message|]; [|done|done].
  unfold await. rewrite lift_bind.
  by destruct (negb (ok (ollama_status response))).
Qed.

Lemma calls_extractThoughtContent (response : ollama_response) :
  calls (extractThoughtContent response) = [].
Proof.
  unfold extractThoughtContent. by destruct (ollama_text response).
Qed.

Lemma calls_processOllamaRequest (w : world) (chatReq : value) :
  calls (processOllamaRequest w chatReq)
  = match prepareOllamaRequest chatReq with
    | Ok ollamaReq => [ollama_fetch ollamaReq]
    | Throw _ => []
    end.
Proof.
  unfold processOllamaRequest.
  destruct (prepareOllamaRequest chatReq) as [ollamaReq|e]; [|done].
  rewrite lift_bind, calls_bind, calls_sendOllamaRequest.
  destruct (outcome (sendOllamaRequest w ollamaReq)) as [[response|e]|]; try done.
  by rewrite calls_extractThoughtContent.
Qed.

Lemma fetches_handleOpenRouterRequest (w : world) (chatReq : value)
    (thoughtContent : jsstring) (req : request) :
  fetches (calls (handleOpenRouterRequest w chatReq thoughtContent req))
  = match getOpenRouterKey req, prepareOpenRouterRequest chatReq thoughtContent with
    | Ok openrouterKey, Ok openrouterReq => [openrouter_fetch openrouterKey openrouterReq]
    | _, _ => []
    end.
Proof.
  unfold handleOpenRouterRequest.
  destruct (getOpenRouterKey req) as [key|e]; [|done]. rewrite lift_bind.
  destruct (prepareOpenRouterRequest chatReq thoughtContent) as [oreq|e]; [|done].
  rewrite lift_bind, calls_emit_bind. unfold fetches. rewrite filter_cons_True by done.
  fold (openrouter_fetch key oreq). f_equal.
  destruct (openrouter w key oreq) as [response|name message|]; [|done|done].
  unfold await. rewrite lift_bind.
  destruct (negb (ok (openrouter_status response))); [done|].
  destruct (get (str "stream") chatReq) as [stream|e]; [|done]. rewrite lift_bind.
  destruct (ToBoolean stream).
  - apply fetches_handleStreamingResponse.
  - by destruct (openrouter_json response).
Qed.

Lemma strict_eq_str_true (v : value) (s : jsstring) :
  strict_eq_str v s = true ↔ v = VStr s.
Proof.
  destruct v; simpl; try done. rewrite bool_decide_eq_true.
  split; congruence.
Qed.

Lemma lastMessage_validated (req : request) (chatReq : value) :
  validateRequest req = Ok chatReq → ∃ m, lastMessage chatReq = Ok m.
Proof.
  intros (_ & o & m & ms & -> & Hm)%validated_shape.
  unfold lastMessage. simpl. rewrite Hm. simpl. by eexists.
Qed.

(** The [try] block, once the request is validated: the local step,
    skipped on a tool turn, then the upstream step. *)
Lemma attempt_validated (w : world) (req : request) (chatReq : value) :
  validateRequest req = Ok chatReq →
  (tool_turn chatReq →
   attempt w req = handleOpenRouterRequest w chatReq [] req)
  ∧ (¬ tool_turn chatReq →
     attempt w req
     = (thoughtContent ← processOllamaRequest w chatReq;
        handleOpenRouterRequest w chatReq thoughtContent req)).
Proof.
  intros Hv. destruct (lastMessage_validated req chatReq Hv) as [m Hm].
  unfold attempt. rewrite Hv, lift_bind, Hm, lift_bind.
  destruct (strict_eq_str (get_opt (str "role") m) (str "tool")) eqn:E; cbn [negb].
  - split; [|intros []; exists m; split; [done|by apply strict_eq_str_true]].
    intros _. by rewrite mret_bind.
  - split; [|done]. intros (m' & Hm' & Hr). rewrite Hm in Hm'.
    injection Hm' as <-. apply strict_eq_str_true in Hr. congruence.
Qed.

Lemma attempt_invalid (w : world) (req : request) (e : error) :
  validateRequest req = Throw e → attempt w req = lift (Throw e).
Proof. intros Hv. unfold attempt. by rewrite Hv, throw_bind. Qed.

Lemma tool_turn_cases (req : request) (chatReq : value) :
  validateRequest req = Ok chatReq → tool_turn chatReq ∨ ¬ tool_turn chatReq.
Proof.
  intros [m Hm]%lastMessage_validated.
  destruct (strict_eq_str (get_opt (str "role") m) (str "tool")) eqn:E.
  - left. exists m. split; [done|]. by apply strict_eq_str_true.
  - right. intros (m' & Hm' & Hr). rewrite Hm in Hm'. injection Hm' as <-.
    apply strict_eq_str_true in Hr. congruence.
Qed.

Lemma fetches_guarded (m : M unit) :
  fetches (calls (guarded m)) = fetches (calls m).
Proof.
  unfold guarded. rewrite calls_try_catch, fetches_app.
  destruct (outcome m) as [[[]|e]|]; rewrite ?fetches_handleError;
    apply app_nil_r.
Qed.

(** Every [fetch] of the handler: the local request, on a turn that is not
    a tool turn, and the upstream request, built from the thought fragment,
    which is empty on a tool turn. *)
Lemma fetches_handler (w : world) (req : request) (ev : event) :
  ev ∈ fetches (calls (handler w req)) →
  ∃ chatReq,
    validateRequest req = Ok chatReq
    ∧ ((¬ tool_turn chatReq
        ∧ ∃ ollamaReq, prepareOllamaRequest chatReq = Ok ollamaReq
                       ∧ ev = ollama_fetch ollamaReq)
       ∨ (∃ openrouterKey thoughtContent openrouterReq,
            getOpenRouterKey req = Ok openrouterKey
            ∧ prepareOpenRouterRequest chatReq thoughtContent = Ok openrouterReq
            ∧ ev = openrouter_fetch openrouterKey openrouterReq
            ∧ (tool_turn chatReq → thoughtContent = []))).
Proof.
  unfold handler. rewrite fetches_guarded.
  destruct (validateRequest req) as [chatReq|e] eqn:Hv.
  2: { rewrite (attempt_invalid w req e Hv). by intros ?%elem_of_nil. }
  assert (∀ t, ev ∈ fetches (calls (handleOpenRouterRequest w chatReq t req)) →
            ∃ key oreq, getOpenRouterKey req = Ok key
                        ∧ prepareOpenRouterRequest chatReq t = Ok oreq
                        ∧ ev = openrouter_fetch key oreq) as Hup.
  { intros t. rewrite fetches_handleOpenRouterRequest.
    destruct (getOpenRouterKey req) as [key|]; [|by intros ?%elem_of_nil].
    destruct (prepareOpenRouterRequest chatReq t) as [oreq|]; [|by intros ?%elem_of_nil].
    intros ->%list_elem_of_singleton. eauto. }
  destruct (attempt_validated w req chatReq Hv) as [Htool Hnot].
  intros Hev. exists chatReq. split; [done|].
  destruct (tool_turn_cases req chatReq Hv) as [Ht|Ht].
  - rewrite (Htool Ht) in Hev.
    destruct (Hup _ Hev) as (key & oreq & ? & ? & ?).
    right. exists key, [], oreq. eauto.
  - rewrite (Hnot Ht), calls_bind, fetches_app in Hev.
    rewrite calls_processOllamaRequest in Hev.
    apply elem_of_app in Hev as [Hev|Hev].
    + left. split; [done|].
      destruct (prepareOllamaRequest chatReq) as [ollamaReq|]; [|by apply elem_of_nil in Hev].
      apply list_elem_of_singleton in Hev. eauto.
    + destruct (outcome (processOllamaRequest w chatReq)) as [[t|]|];
        try by apply elem_of_nil in Hev.
      destruct (Hup _ Hev) as (key & oreq & ? & ? & ?).
      right. exists key, t, oreq. repeat split; try done.
Qed.

Lemma elem_of_calls_fetch (l : list event) url hs p :
  Fetch url hs p ∈ l ↔ Fetch url hs p ∈ fetches l.
Proof. rewrite elem_of_fetches. simpl. tauto. Qed.

Lemma local_url_not_upstream : OLLAMA_URL ++ str "/api/chat" ≠ OPENROUTER_URL.
Proof. done. Qed.

(** ** Error Mapper *)

Lemma headersSent_app (res res' : list event) :
  headersSent (res ++ res') = headersSent res || headersSent res'.
Proof. apply existsb_app. Qed.

Lemma status_sent_handleError (res rest : list event) (c0 c : N) (payload : value) :
  headersSent res = false →
  status_sent c0 (res ++ Status c :: Json payload :: rest) = Some c.
Proof.
  revert c0. induction res as [|ev res IH]; intros c0 H; [done|].
  destruct ev; simpl in *; try done; by apply IH.
Qed.

Lemma json_sent_handleError (res rest : list event) (c0 c : N) (payload : value) :
  headersSent res = false →
  json_sent c0 (res ++ Status c :: Json payload :: rest)
  = if bodiless c then None else Some payload.
Proof.
  revert c0. induction res as [|ev res IH]; intros c0 H; [done|].
  destruct ev; simpl in *; try done; by apply IH.
Qed.

Lemma relay_step_no_status (st : relay) (ev : stream_event) :
  no_status (settled st) → no_status (settled (relay_step st ev)).
Proof.
  intros H. destruct ev; simpl; try done;
    destruct (heartbeat st), (settled st) as [[[]|e]|] eqn:E; simpl;
    rewrite ?E; done.
Qed.

Lemma relay_run_no_status (st : relay) (evs : list stream_event) :
  no_status (settled st) → no_status (settled (relay_run st evs)).
Proof.
  revert st. induction evs as [|ev evs IH]; intros st H; [done|].
  simpl. by apply IH, relay_step_no_status.
Qed.

Lemma handleOpenRouterRequest_no_status (w : world) (chatReq : value)
    (thoughtContent : jsstring) (req : request) :
  headersSent (calls (handleOpenRouterRequest w chatReq thoughtContent req)) = true →
  no_status (outcome (handleOpenRouterRequest w chatReq thoughtContent req)).
Proof.
  unfold handleOpenRouterRequest.
  destruct (getOpenRouterKey req) as [key|e]; [|done]. rewrite lift_bind.
  destruct (prepareOpenRouterRequest chatReq thoughtContent) as [oreq|e]; [|done].
  rewrite lift_bind, calls_emit_bind, outcome_emit_bind.
  destruct (openrouter w key oreq) as [response|name message|]; [|done|done].
  unfold await. rewrite lift_bind.
  destruct (negb (ok (openrouter_status response))); [done|].
  destruct (get (str "stream") chatReq) as [stream|e]; [|done]. rewrite lift_bind.
  destruct (ToBoolean stream).
  - intros _. unfold handleStreamingResponse.
    destruct (null_body_status (openrouter_status response)); [done|].
    by apply relay_run_no_status.
  - by destruct (openrouter_json response).
Qed.

Lemma headersSent_processOllamaRequest (w : world) (chatReq : value) :
  headersSent (calls (processOllamaRequest w chatReq)) = false.
Proof.
  rewrite calls_processOllamaRequest. by destruct (prepareOllamaRequest chatReq).
Qed.

(** An error that carries a status code reaches the error mapper before
    anything has gone out. *)
Lemma attempt_no_status (w : world) (req : request) :
  headersSent (calls (attempt w req)) = true → no_status (outcome (attempt w req)).
Proof.
  destruct (validateRequest req) as [chatReq|e] eqn:Hv.
  2: { by rewrite (attempt_invalid w req e Hv). }
  destruct (attempt_validated w req chatReq Hv) as [Htool Hnot].
  destruct (tool_turn_cases req chatReq Hv) as [Ht|Ht].
  - rewrite (Htool Ht). apply handleOpenRouterRequest_no_status.
  - rewrite (Hnot Ht), calls_bind, outcome_bind, headersSent_app,
      headersSent_processOllamaRequest. simpl.
    destruct (outcome (processOllamaRequest w chatReq)) as [[t|e]|]; try done.
    apply handleOpenRouterRequest_no_status.
Qed.

(** ** Building the local request, continued *)

(** C7. For a validated request, the request built for the local endpoint
    has no [tools] field, the fixed local model as [model], the single stop
    sequence [</think>] as [options], and as [messages] the original
    messages in their order, each with its content and its role, the role
    [tool] replaced by [user]; the other fields are the original ones. It
    is built whenever no message is [null], and it is the payload of every
    request the handler sends to the local endpoint. *)
Theorem prepareOllamaRequest_spec (req : request) (chatReq : value) :
  validateRequest req = Ok chatReq →
  ∃ o messages,
    chatReq = VObj o
    ∧ o !! str "messages" = Some (VArr messages)
    ∧ (Forall (λ m, m ≠ VNull ∧ m ≠ VUndef) messages →
       ∃ ollamaReq, prepareOllamaRequest chatReq = Ok ollamaReq)
    ∧ ∀ ollamaReq, prepareOllamaRequest chatReq = Ok ollamaReq →
        ∃ o' messages',
          ollamaReq = VObj o'
          ∧ o' !! str "tools" = None
          ∧ o' !! str "model" = Some (VStr DEEPSEEK_CHAT_MODEL)
          ∧ o' !! str "options"
            = Some (VObj {[ str "stop" := VArr [VStr (str "</think>")] ]})
          ∧ o' !! str "messages" = Some (VArr messages')
          ∧ length messages' = length messages
          ∧ (∀ i m, messages !! i = Some m →
               ∃ m', messages' !! i = Some m'
                 ∧ get_opt "role" m'
                   = (if strict_eq_str (get_opt "role" m) "tool"
                      then VStr "user" else get_opt "role" m)
                 ∧ get_opt "content" m' = get_opt "content" m)
          ∧ (∀ k, k ≠ str "tools" → k ≠ str "model" → k ≠ str "options" →
                  k ≠ str "messages" → o' !! k = o !! k)
          ∧ (∀ w hs p,
               Fetch (OLLAMA_URL ++ str "/api/chat") hs p ∈ calls (handler w req) →
               p = ollamaReq).
Proof.
  intros Hv. pose proof Hv as Hv0. revert Hv.
  intros (_ & o & m & ms & -> & Hm)%validated_shape.
  exists o, (m :: ms). split; [done|]. split; [done|].
  assert (delete (str "tools") o !! str "messages" = Some (VArr (m :: ms))) as Hd
    by by rewrite lookup_delete_ne.
  split.
  - intros [l' Hl']%mapM_remap_total. unfold prepareOllamaRequest.
    rewrite Hd, Hl'. simpl. by eexists.
  - intros ollamaReq. unfold prepareOllamaRequest. rewrite Hd.
    destruct (mapM remap (m :: ms)) as [l'|] eqn:El; [|done].
    simpl. intros [= <-]. pose proof El as [Hlen Hi]%mapM_remap_Ok.
    eexists _, l'. split; [done|].
    split; [rewrite !lookup_insert_ne by done; by rewrite lookup_delete_eq|].
    split; [rewrite !lookup_insert_ne by done; by rewrite lookup_insert_eq|].
    split; [by rewrite lookup_insert_eq|].
    split; [rewrite !lookup_insert_ne by done; by rewrite lookup_insert_eq|].
    split; [done|]. split; [|split].
    + intros i x Hx. destruct (Hi i x Hx) as (x' & Hx' & Hr).
      exists x'. split; [done|]. by apply remap_Ok.
    + intros k ? ? ? ?. rewrite !lookup_insert_ne by done. by rewrite lookup_delete_ne.
    + intros w hs p [chatReq' [Hv' [H|H]]]%elem_of_calls_fetch%fetches_handler;
        rewrite Hv0 in Hv'; injection Hv' as <-.
      * destruct H as (_ & r & Hr & [= _ ->]).
        unfold prepareOllamaRequest in Hr. rewrite Hd, El in Hr. simpl in Hr.
        congruence.
      * by destruct H as (? & ? & ? & _ & _ & [=] & _).
Qed.

Lemma prepareOllamaRequest_spec_witness :
  validateRequest tool_request = Ok (body tool_request)
  ∧ ∃ ollamaReq, prepareOllamaRequest (body tool_request) = Ok ollamaReq.
Proof.
  split; [reflexivity|].
  destruct (prepareOllamaRequest_spec tool_request (body tool_request) eq_refl)
    as (o & messages & Ho & Hm & Hbuilt & _).
  apply Hbuilt. injection Ho as <-. rewrite lookup_insert_eq in Hm.
  injection Hm as <-. repeat constructor; done.
Defined.

(** ** Missing credential *)

(** C1, as the code has it. When the [Authorization] header is absent, the
    Upstream Relay Client fails with the 401 error before it issues any
    call, so no request is ever sent to the upstream endpoint. The handler
    reaches that check only after validation and the local reasoning step:
    on a tool turn it answers 401 without any outbound call; otherwise the
    request to the local endpoint has been sent first, and the handler
    answers 401 once the local step has produced its fragment. *)
Theorem missing_authorization (w : world) (req : request) :
  authorization req = None →
  (∀ chatReq thoughtContent,
     handleOpenRouterRequest w chatReq thoughtContent req
     = Run [] (Some (Throw missing_key)))
  ∧ (∀ hs p, Fetch OPENROUTER_URL hs p ∉ calls (handler w req))
  ∧ (∀ chatReq, validateRequest req = Ok chatReq →
       (tool_turn chatReq → handler w req = Run unauthorized (Some (Ok tt)))
       ∧ (¬ tool_turn chatReq →
          ∀ thoughtContent,
            outcome (processOllamaRequest w chatReq) = Some (Ok thoughtContent) →
            ∃ ollamaReq,
              prepareOllamaRequest chatReq = Ok ollamaReq
              ∧ handler w req
                = Run (ollama_fetch ollamaReq :: unauthorized) (Some (Ok tt)))).
Proof.
  intros Hauth.
  assert (getOpenRouterKey req = Throw missing_key) as Hkey
    by (unfold getOpenRouterKey; by rewrite Hauth).
  assert (∀ chatReq thoughtContent,
            handleOpenRouterRequest w chatReq thoughtContent req
            = Run [] (Some (Throw missing_key))) as Hup.
  { intros. unfold handleOpenRouterRequest. by rewrite Hkey. }
  split; [done|]. split.
  - intros hs p [chatReq [_ [H|H]]]%elem_of_calls_fetch%fetches_handler.
    + by destruct H as (_ & ollamaReq & _ & [=]).
    + destruct H as (key & _ & _ & Hk & _). congruence.
  - intros chatReq Hv. destruct (attempt_validated w req chatReq Hv) as [Htool Hnot].
    unfold handler. split.
    + intros Ht. by rewrite (Htool Ht), Hup.
    + intros Ht t Ho. rewrite (Hnot Ht).
      pose proof (calls_processOllamaRequest w chatReq) as Hc.
      destruct (prepareOllamaRequest chatReq) as [ollamaReq|e] eqn:Hp.
      * exists ollamaReq. split; [done|].
        unfold guarded, try_catch. rewrite outcome_bind, calls_bind, Ho, Hc, Hup. done.
      * unfold processOllamaRequest in Ho. by rewrite Hp in Ho.
Qed.

Lemma missing_authorization_witness :
  authorization example_request = None
  ∧ ∀ hs p, Fetch OPENROUTER_URL hs p ∉ calls (handler quiet_world example_request).
Proof.
  split; [reflexivity|].
  apply (missing_authorization quiet_world example_request). reflexivity.
Defined.

(** C1, as the specification states it, fails: without an [Authorization] header the
    handler sends the request to the local reasoning endpoint first, and
    only then answers 401. *)
Lemma missing_authorization_counterexample :
  authorization example_request = None
  ∧ ∃ ollamaReq,
      prepareOllamaRequest (body example_request) = Ok ollamaReq
      ∧ handler quiet_world example_request
        = Run (ollama_fetch ollamaReq :: unauthorized) (Some (Ok tt)).
Proof. split; [done|]. eexists. split; [reflexivity|]. vm_compute. reflexivity. Qed.

(** ** Tool turns *)

(** C5. On a validated request whose last message has role [tool], the
    handler goes straight to the upstream step with the empty thought
    fragment: it sends nothing to the local endpoint, and the only request
    it can send is the upstream one, built from the empty fragment, whose
    messages are the original ones. *)
Theorem tool_turn_skips_local (w : world) (req : request) (chatReq : value) :
  validateRequest req = Ok chatReq →
  tool_turn chatReq →
  handler w req = guarded (handleOpenRouterRequest w chatReq [] req)
  ∧ (∀ hs p, Fetch (OLLAMA_URL ++ str "/api/chat") hs p ∉ calls (handler w req))
  ∧ (∀ url hs p, Fetch url hs p ∈ calls (handler w req) →
       url = OPENROUTER_URL
       ∧ prepareOpenRouterRequest chatReq [] = Ok p
       ∧ get_opt "messages" p = get_opt "messages" chatReq).
Proof.
  intros Hv Ht.
  assert (∀ url hs p, Fetch url hs p ∈ calls (handler w req) →
            url = OPENROUTER_URL ∧ prepareOpenRouterRequest chatReq [] = Ok p) as Hup.
  { intros url hs p [chatReq' [Hv' [H|H]]]%elem_of_calls_fetch%fetches_handler;
      rewrite Hv in Hv'; injection Hv' as <-.
    - destruct H as [Hn _]. by destruct Hn.
    - destruct H as (key & t & oreq & _ & Hp & [= -> _ ->] & Hempty).
      by rewrite Hempty in Hp. }
  split.
  { unfold handler. by rewrite (proj1 (attempt_validated w req chatReq Hv) Ht). }
  split.
  - intros hs p [E _]%Hup. by apply local_url_not_upstream.
  - intros url hs p [-> Hp]%Hup. repeat split; [done|].
    apply validated_shape in Hv as (_ & o & m & ms & -> & Hm).
    simpl in Hp. rewrite Hm in Hp. simpl in Hp. injection Hp as <-.
    simpl. by rewrite lookup_insert_eq, Hm, app_nil_r.
Qed.

Lemma tool_turn_skips_local_witness :
  validateRequest tool_request = Ok (body tool_request)
  ∧ tool_turn (body tool_request)
  ∧ ∀ hs p, Fetch (OLLAMA_URL ++ str "/api/chat") hs p
            ∉ calls (handler quiet_world tool_request).
Proof.
  assert (tool_turn (body tool_request)) as H
    by (eexists; split; reflexivity).
  split; [reflexivity|]. split; [exact H|].
  apply (tool_turn_skips_local quiet_world tool_request (body tool_request)).
  - reflexivity.
  - exact H.
Defined.

(** ** Thought extraction *)

Section Trim.

Implicit Types (s t ws : jsstring).

Lemma trimStart_spec s :
  ∃ ws, s = ws ++ trimStart s ∧ blank ws
        ∧ ∀ c, head (trimStart s) = Some c → isWhiteSpace c = false.
Proof.
  induction s as [|c s (ws & Hs & Hws & Hh)]; simpl.
  - exists []. split; [done|]. split; [constructor|done].
  - destruct (isWhiteSpace c) eqn:Ec.
    + exists (c :: ws). split; [simpl; congruence|]. split; [by constructor|done].
    + exists []. split; [done|]. split; [constructor|]. simpl. congruence.
Qed.

Lemma trimStart_blank ws : blank ws → trimStart ws = [].
Proof. induction 1 as [|c ws Hc _ IH]; simpl; [done|by rewrite Hc]. Qed.

Lemma trim_blank ws : blank ws → trim ws = [].
Proof. intros H. unfold trim. by rewrite trimStart_blank. Qed.

Lemma trim_trimmed_of s : trimmed_of s (trim s).
Proof.
  unfold trim, trimEnd.
  destruct (trimStart_spec s) as (ws1 & Hs & Hws1 & Hh).
  destruct (trimStart_spec (reverse (trimStart s))) as (ws2 & Hr & Hws2 & Hl).
  set (v := trimStart (reverse (trimStart s))) in *.
  assert (trimStart s = reverse v ++ reverse ws2) as Hu.
  { rewrite <- reverse_app, <- Hr. by rewrite reverse_involutive. }
  exists ws1, (reverse ws2). repeat split.
  - by rewrite <- Hu.
  - done.
  - unfold blank. by rewrite Forall_reverse.
  - intros c Hc. apply Hh. rewrite Hu.
    destruct (reverse v); [done|]. done.
  - intros c Hc. apply Hl. rewrite last_reverse in Hc. done.
Qed.

End Trim.

Lemma thought_fragment_of (text : jsstring) : fragment_of text (thought text).
Proof.
  unfold thought, thinkMatch. fold think_open.
  destruct (indexOf think_open text) as [i|] eqn:E; simpl.
  - apply indexOf_Some in E as [(pre & post & -> & <-) Hmin].
    replace (drop (length pre + 7) (pre ++ think_open ++ post)) with post.
    + eapply fragment_after; [done|done|apply trim_trimmed_of].
    + rewrite <- drop_drop, drop_app_length. done.
  - apply fragment_empty. by apply indexOf_None.
Qed.

(** *** The accumulated text, as the specification words it *)

Section Accumulate.

Implicit Types (acc line : jsstring) (lines : list jsstring) (v : value).

(** On a well-typed line the loop body appends the delta and breaks on
    [done = true]; where it throws instead, there was no delta and no
    [done]. *)
Lemma line_step_well_typed acc line v :
  JSON.parse line = Ok v → well_typed v = true →
  line_step acc line = Ok (acc ++ content_of v, done_true v)
  ∨ (∃ e, line_step acc line = Throw e) ∧ content_of v = [] ∧ done_true v = false.
Proof.
  intros Hp Ht. unfold line_step. rewrite Hp. simpl.
  unfold well_typed, content_of, done_true in *.
  destruct v as [| | | | | |o]; simpl in *;
    try (left; by rewrite app_nil_r); try (right; by eauto).
  destruct (get_opt (str "content") (default VUndef (o !! str "message")))
    as [| | | |s| |]; try done; simpl.
  - left. rewrite app_nil_r.
    by destruct (default VUndef (o !! str "done")) as [| |[]| | | |].
  - left. destruct s as [|c s]; simpl; rewrite ?app_nil_r;
      by destruct (default VUndef (o !! str "done")) as [| |[]| | | |].
Qed.

Lemma line_step_unparsed acc line e :
  JSON.parse line = Throw e → line_step acc line = Throw e.
Proof. intros Hp. unfold line_step. by rewrite Hp. Qed.

Lemma accumulate_read acc lines :
  forallb line_conforms lines = true →
  accumulate acc lines
  = acc ++ concat (content_of <$> until_done (omap parses lines)).
Proof.
  revert acc. induction lines as [|line lines IH]; intros acc H; simpl.
  - by rewrite app_nil_r.
  - simpl in H. apply andb_true_iff in H as [Hl Hls].
    unfold line_conforms in Hl. unfold parses at 1.
    destruct (JSON.parse line) as [v|e] eqn:Hp.
    + simpl. destruct (line_step_well_typed acc line v Hp Hl)
        as [->|([e He] & Hc & Hd)].
      * destruct (done_true v); simpl.
        -- by rewrite app_nil_r.
        -- rewrite IH by done. by rewrite app_assoc.
      * rewrite He, Hd. simpl. rewrite Hc. simpl. by apply IH.
    + rewrite (line_step_unparsed acc line e Hp). by apply IH.
Qed.

(** The empty lines that [filter(Boolean)] drops would not parse. *)
Lemma accumulate_lines_of acc lines :
  accumulate acc (filter (λ line, line ≠ []) lines) = accumulate acc lines.
Proof.
  revert acc. induction lines as [|line lines IH]; intros acc; [done|].
  destruct (decide (line = [])) as [->|Hne].
  - rewrite filter_cons_False by (intros H; by apply H). simpl. apply IH.
  - rewrite filter_cons_True by done. simpl.
    destruct (line_step acc line) as [[acc' []]|]; by rewrite ?IH.
Qed.

Lemma accumulate_conforms rawResponse :
  conforms rawResponse = true →
  accumulate [] (lines_of rawResponse) = read_accumulated rawResponse.
Proof.
  intros H. unfold lines_of. rewrite accumulate_lines_of.
  by rewrite accumulate_read.
Qed.

End Accumulate.

(** C2. Extraction never fails. Lines that do not parse as JSON are passed
    over; on a response body whose lines follow the protocol, the text the
    loop accumulates is the concatenation, in order, of the content deltas
    of the lines that parse, up to the first line with [done = true]. The
    fragment returned is empty when the accumulated text has no opening tag,
    and otherwise what follows its first opening tag, trimmed, with the
    closing tag appended. On the two lines of the worked example the
    accumulated text is [<think>abcd</think>xy] and the fragment is
    [abcd</think>xy</think>]. *)
Theorem extractThoughtContent_spec :
  (∀ rawResponse status,
     ∃ fragment,
       extractThoughtContent
         {| ollama_status := status; ollama_text := Reply rawResponse |}
       = Run [] (Some (Ok fragment))
       ∧ fragment_of (accumulate [] (lines_of rawResponse)) fragment
       ∧ (conforms rawResponse = true →
          accumulate [] (lines_of rawResponse) = read_accumulated rawResponse))
  ∧ (∀ accumulatedContent line rest,
       parses line = None →
       accumulate accumulatedContent (line :: rest) = accumulate accumulatedContent rest)
  ∧ conforms worked_example = true
  ∧ read_accumulated worked_example = str "<think>abcd</think>xy"
  ∧ extractThoughtContent
      {| ollama_status := 200; ollama_text := Reply worked_example |}
    = Run [] (Some (Ok (str "abcd</think>xy</think>"))).
Proof.
  split; [|split; [|repeat split; by vm_compute]].
  - intros rawResponse status. eexists. split; [reflexivity|].
    split; [apply thought_fragment_of|apply accumulate_conforms].
  - intros acc line rest Hp. unfold parses in Hp. simpl.
    destruct (JSON.parse line) as [v|e] eqn:E; [done|].
    by rewrite (line_step_unparsed acc line e E).
Qed.

Lemma extractThoughtContent_spec_witness :
  accumulate [] (lines_of worked_example) = read_accumulated worked_example.
Proof.
  destruct (proj1 extractThoughtContent_spec worked_example 200)
    as (fragment & _ & _ & H).
  apply H. vm_compute. reflexivity.
Defined.

(** *** A tag followed by white space only *)

(** No proper suffix of the opening tag starts the tag again, so an
    occurrence cannot begin inside [pre] and run into the tag after it. *)
Lemma first_think_open (pre post : jsstring) :
  (∀ i, ¬ occurs_at think_open pre i) →
  indexOf think_open (pre ++ think_open ++ post) = Some (length pre).
Proof.
  intros Hpre. apply indexOf_Some. split; [by exists pre, post|].
  intros j (a & b & E & <-).
  destruct (decide (length pre ≤ length a)%nat) as [|Hlt]; [done|]. exfalso.
  destruct (decide (length a + 7 ≤ length pre)%nat) as [Hin|Hover].
  - apply (Hpre (length a)). exists a, (take (length pre - length (a ++ think_open)) b).
    split; [|done].
    apply (f_equal (take (length pre))) in E.
    rewrite take_app_length in E.
    rewrite (app_assoc a), take_app_ge, <- app_assoc in E
      by (rewrite length_app; simpl; lia).
    done.
  - apply (f_equal (λ l, l !! length pre)) in E. simpl in E.
    rewrite (lookup_app_r pre), Nat.sub_diag in E by lia.
    rewrite (lookup_app_r a) in E by lia. simpl in E.
    remember (length pre - length a)%nat as d eqn:Hd.
    assert (1 ≤ d ≤ 6)%nat as Hrange by lia.
    destruct d as [|[|[|[|[|[|[|d]]]]]]]; simpl in E; try done; lia.
Qed.

(** C10, as the code has it. When the first opening tag of the accumulated
    text is followed by white space only, or by nothing, the fragment is
    exactly the closing tag, and the upstream request of a validated
    request then ends with an extra assistant message whose content is the
    closing tag. *)
Theorem blank_thought (pre ws : jsstring) :
  (∀ i, ¬ occurs_at think_open pre i) →
  blank ws →
  thought (pre ++ think_open ++ ws) = think_close
  ∧ ∀ req chatReq,
      validateRequest req = Ok chatReq →
      ∃ o messages o',
        chatReq = VObj o
        ∧ o !! str "messages" = Some (VArr messages)
        ∧ prepareOpenRouterRequest chatReq (thought (pre ++ think_open ++ ws))
          = Ok (VObj o')
        ∧ o' !! str "messages"
          = Some (VArr (messages ++ [assistant_message think_close])).
Proof.
  intros Hpre Hws.
  assert (thought (pre ++ think_open ++ ws) = think_close) as ->.
  { unfold thought, thinkMatch. fold think_open.
    rewrite first_think_open by done. simpl.
    rewrite <- drop_drop, drop_app_length. simpl.
    by rewrite trim_blank. }
  split; [done|].
  intros req chatReq (_ & o & m & ms & -> & Hm)%validated_shape.
  exists o, (m :: ms). eexists. split; [done|]. split; [done|]. split.
  - simpl. rewrite Hm. simpl. reflexivity.
  - by rewrite lookup_insert_eq.
Qed.

Lemma blank_thought_witness :
  (∀ i, ¬ occurs_at think_open (str "Sure.") i)
  ∧ blank [32; 10]
  ∧ thought (str "Sure." ++ think_open ++ [32; 10]) = think_close.
Proof.
  assert (∀ i, ¬ occurs_at think_open (str "Sure.") i) as H1
    by (apply indexOf_None; reflexivity).
  assert (blank [32; 10]) as H2 by (repeat constructor).
  split; [exact H1|]. split; [exact H2|].
  apply (blank_thought (str "Sure.") [32; 10] H1 H2).
Defined.

(** C10, as the specification states it, fails: a text can hold an opening tag followed
    by nothing and yet start with an earlier one; the fragment is then what
    follows the first tag, the later tag included. *)
Lemma blank_thought_counterexample :
  let text := think_open ++ str "a" ++ think_open ++ [] in
  blank []
  ∧ thought text = str "a<think></think>"
  ∧ thought text ≠ think_close.
Proof.
  split; [constructor|]. split; [by vm_compute|].
  intros H. vm_compute in H. discriminate H.
Qed.

(** * Further properties of the handler chain *)

(** ** The catch block *)

Lemma error_body_message (e : error) :
  error_message e ≠ [] →
  error_body e = VObj {[ str "error" := VStr (error_message e) ]}.
Proof. intros H. unfold error_body. by rewrite bool_decide_eq_false_2. Qed.

Lemma guarded_throw (m : M unit) (e : error) :
  outcome m = Some (Throw e) →
  headersSent (calls m) = false →
  guarded m
  = Run (calls m ++ [Status (default 500 (carried_status e)); Json (error_body e)])
      (Some (Ok tt)).
Proof.
  intros Ho Hs. unfold guarded, try_catch. by rewrite Ho, (handleError_run e _ Hs).
Qed.

Lemma guarded_ok (m : M unit) : outcome m = Some (Ok tt) → guarded m = m.
Proof. intros Ho. unfold guarded, try_catch. by rewrite Ho. Qed.

Lemma guarded_pending (m : M unit) : outcome m = None → guarded m = m.
Proof. intros Ho. unfold guarded, try_catch. by rewrite Ho. Qed.

(** ** Requests that fail validation *)

(** X1. A request that fails validation is answered at once: the handler
    issues no outbound request, whatever the world, and answers with the
    status of the validation error; for a JSON object or array without a
    usable [messages] field that is 400 with the fixed message. *)
Theorem invalid_request_no_network (w : world) (req : request) (e : error) :
  validateRequest req = Throw e →
  handler w req
  = Run [Status (default 500 (carried_status e)); Json (error_body e)] (Some (Ok tt))
  ∧ fetches (calls (handler w req)) = []
  ∧ (payload (body req) →
     handler w req
     = Run [Status 400;
            Json (VObj {[ str "error" :=
                            VStr (str "Invalid request: messages array is required") ]})]
         (Some (Ok tt))).
Proof.
  intros Hv.
  assert (handler w req
          = Run [Status (default 500 (carried_status e)); Json (error_body e)]
              (Some (Ok tt))) as Hh.
  { unfold handler. rewrite (attempt_invalid w req e Hv).
    by rewrite (guarded_throw _ e). }
  split; [done|]. split; [by rewrite Hh|].
  intros Hp. rewrite Hh. unfold validateRequest in Hv.
  destruct (body req) as [| | | | |l|o]; try done; simpl in Hv.
  - by injection Hv as <-.
  - destruct (default VUndef (o !! str "messages")) as [| | | | |[|m ms]|];
      try done; by injection Hv as <-.
Qed.

Lemma invalid_request_no_network_witness :
  validateRequest {| body := VObj ∅; authorization := None |} = Throw invalid_request
  ∧ fetches (calls (handler answering_world {| body := VObj ∅; authorization := None |}))
    = [].
Proof.
  split; [reflexivity|].
  apply (invalid_request_no_network answering_world
           {| body := VObj ∅; authorization := None |} invalid_request).
  reflexivity.
Defined.

(** ** The local step *)

Lemma local_step_done_calls (w : world) (chatReq : value) (pre : list event)
    (thoughtContent : jsstring) :
  local_step_done w chatReq pre thoughtContent →
  pre = [] ∨ ∃ ollamaReq, prepareOllamaRequest chatReq = Ok ollamaReq
                          ∧ pre = [ollama_fetch ollamaReq].
Proof.
  intros [(_ & -> & _)|[_ H]]; [by left|].
  pose proof (calls_processOllamaRequest w chatReq) as Hc. rewrite H in Hc.
  simpl in Hc. destruct (prepareOllamaRequest chatReq) as [r|]; eauto.
Qed.

Lemma local_step_done_headers (w : world) (chatReq : value) (pre : list event)
    (thoughtContent : jsstring) :
  local_step_done w chatReq pre thoughtContent → headersSent pre = false.
Proof. by intros [-> |(r & _ & ->)]%local_step_done_calls. Qed.

(** The local step in full, once the local request is built. *)
Lemma processOllamaRequest_run (w : world) (chatReq ollamaReq : value) :
  prepareOllamaRequest chatReq = Ok ollamaReq →
  processOllamaRequest w chatReq
  = Run [ollama_fetch ollamaReq]
      (match ollama w ollamaReq with
       | Reply response =>
           if ok (ollama_status response)
           then match ollama_text response with
                | Reply rawResponse =>
                    Some (Ok (thought (accumulate [] (lines_of rawResponse))))
                | Failed name message => Some (Throw (JSError name message))
                | Pending => None
                end
           else Some (Throw (ollama_failed (ollama_status response)))
       | Failed name message => Some (Throw (JSError name message))
       | Pending => None
       end).
Proof.
  intros Hp. unfold processOllamaRequest, sendOllamaRequest, extractThoughtContent.
  rewrite Hp, lift_bind.
  destruct (ollama w ollamaReq) as [response|name message|]; [|done|done].
  cbn -[ok thought accumulate lines_of N_to_jsstring str].
  destruct (ok (ollama_status response)); [|done].
  cbn -[thought accumulate lines_of].
  by destruct (ollama_text response).
Qed.

(** After the local step, the [try] block is the upstream step. *)
Lemma attempt_after_local (w : world) (req : request) (chatReq : value)
    (pre : list event) (thoughtContent : jsstring) :
  validateRequest req = Ok chatReq →
  local_step_done w chatReq pre thoughtContent →
  attempt w req
  = Run (pre ++ calls (handleOpenRouterRequest w chatReq thoughtContent req))
      (outcome (handleOpenRouterRequest w chatReq thoughtContent req)).
Proof.
  intros Hv Hl. destruct (attempt_validated w req chatReq Hv) as [Htool Hnot].
  destruct Hl as [(Ht & -> & ->)|[Ht Hp]].
  - rewrite (Htool Ht). by destruct (handleOpenRouterRequest w chatReq [] req).
  - rewrite (Hnot Ht), Hp. reflexivity.
Qed.

(** X2. When the local step fails, the request is over: nothing is sent
    upstream and the failure is the answer. A local endpoint that answers
    with a status outside 200..299 has that very status passed on, with a
    body whose [error] is [Ollama request failed: <status>], which the
    caller receives unless the status lets no body through (304, say); a
    local endpoint that cannot be reached, or whose body cannot be read,
    gives 500 and the message of the failure. *)
Theorem local_failure_aborts (w : world) (req : request) (chatReq ollamaReq : value) :
  validateRequest req = Ok chatReq →
  ¬ tool_turn chatReq →
  prepareOllamaRequest chatReq = Ok ollamaReq →
  (∀ response,
     ollama w ollamaReq = Reply response →
     ok (ollama_status response) = false →
     http_status (ollama_status response) →
     handler w req
     = Run [ollama_fetch ollamaReq;
            Status (ollama_status response);
            Json (VObj {[ str "error" :=
                            VStr (str "Ollama request failed: "
                                    ++ N_to_jsstring (ollama_status response)) ]})]
         (Some (Ok tt))
     ∧ response_status (calls (handler w req)) = Some (ollama_status response)
     ∧ response_json (calls (handler w req))
       = error_received (ollama_status response) (ollama_failed (ollama_status response)))
  ∧ (∀ e,
       (∃ name message,
          e = JSError name message
          ∧ (ollama w ollamaReq = Failed name message
             ∨ ∃ response,
                 ollama w ollamaReq = Reply response
                 ∧ ok (ollama_status response) = true
                 ∧ ollama_text response = Failed name message)) →
       handler w req
       = Run [ollama_fetch ollamaReq; Status 500; Json (error_body e)] (Some (Ok tt))
       ∧ response_status (calls (handler w req)) = Some 500
       ∧ response_json (calls (handler w req)) = Some (error_body e))
  ∧ ((∃ e, outcome (processOllamaRequest w chatReq) = Some (Throw e)) →
     fetches (calls (handler w req)) = [ollama_fetch ollamaReq]).
Proof.
  intros Hv Ht Hp.
  assert (∀ e, processOllamaRequest w chatReq
               = Run [ollama_fetch ollamaReq] (Some (Throw e)) →
            handler w req
            = Run [ollama_fetch ollamaReq; Status (default 500 (carried_status e));
                   Json (error_body e)] (Some (Ok tt))) as Hfail.
  { intros e He. unfold handler.
    rewrite (proj2 (attempt_validated w req chatReq Hv) Ht), He.
    by rewrite (guarded_throw _ e). }
  pose proof (processOllamaRequest_run w chatReq ollamaReq Hp) as Hrun.
  split; [|split].
  - intros response Hr Hok _. rewrite Hr, Hok in Hrun.
    rewrite (Hfail _ Hrun). by rewrite error_body_message.
  - intros e (name & message & -> & [Hr|(response & Hr & Hok & Htext)]).
    + rewrite Hr in Hrun. by rewrite (Hfail _ Hrun).
    + rewrite Hr, Hok, Htext in Hrun. by rewrite (Hfail _ Hrun).
  - intros [e He]. rewrite Hrun in He. rewrite Hrun in Hfail.
    simpl in He. rewrite He in Hfail. by rewrite (Hfail e eq_refl).
Qed.

Lemma local_failure_aborts_witness :
  validateRequest example_request = Ok (body example_request)
  ∧ ¬ tool_turn (body example_request)
  ∧ ∃ ollamaReq,
      prepareOllamaRequest (body example_request) = Ok ollamaReq
      ∧ handler busy_local_world example_request
        = Run [ollama_fetch ollamaReq; Status 503;
               Json (VObj {[ str "error" := VStr (str "Ollama request failed: 503") ]})]
            (Some (Ok tt)).
Proof.
  assert (¬ tool_turn (body example_request)) as Ht.
  { intros (m & Hm & Hr). vm_compute in Hm. injection Hm as <-. by vm_compute in Hr. }
  split; [reflexivity|]. split; [exact Ht|].
  eexists. split; [reflexivity|].
  destruct (local_failure_aborts busy_local_world example_request
              (body example_request) _ eq_refl Ht eq_refl) as [H _].
  apply (H {| ollama_status := 503; ollama_text := Reply [] |}); try reflexivity.
  unfold http_status. simpl. lia.
Defined.

(** ** The upstream step *)

(** The upstream step in full, once the key is there and the request is
    built. *)
Lemma handleOpenRouterRequest_run (w : world) (o : gmap jsstring value)
    (thoughtContent : jsstring) (req : request) (key : jsstring) (oreq : value) :
  getOpenRouterKey req = Ok key →
  prepareOpenRouterRequest (VObj o) thoughtContent = Ok oreq →
  handleOpenRouterRequest w (VObj o) thoughtContent req
  = match openrouter w key oreq with
    | Pending => Run [openrouter_fetch key oreq] None
    | Failed name message =>
        Run [openrouter_fetch key oreq] (Some (Throw (JSError name message)))
    | Reply response =>
        if ok (openrouter_status response)
        then if ToBoolean (get_opt "stream" (VObj o))
             then Run (openrouter_fetch key oreq
                         :: calls (handleStreamingResponse response))
                    (outcome (handleStreamingResponse response))
             else match openrouter_json response with
                  | Reply payload =>
                      Run [openrouter_fetch key oreq; Json payload] (Some (Ok tt))
                  | Failed name message =>
                      Run [openrouter_fetch key oreq]
                        (Some (Throw (JSError name message)))
                  | Pending => Run [openrouter_fetch key oreq] None
                  end
        else Run [openrouter_fetch key oreq]
               (Some (Throw (openrouter_failed (openrouter_status response))))
    end.
Proof.
  intros Hk Hp. unfold handleOpenRouterRequest. rewrite Hk, lift_bind, Hp, lift_bind.
  destruct (openrouter w key oreq) as [response|name message|]; [|done|done].
  cbn -[ok ToBoolean handleStreamingResponse N_to_jsstring str OPENROUTER_URL].
  destruct (ok (openrouter_status response)); [|done].
  cbn -[ToBoolean handleStreamingResponse str OPENROUTER_URL].
  destruct (ToBoolean (default VUndef (o !! str "stream"))); [done|].
  by destruct (openrouter_json response).
Qed.

Lemma handleStreamingResponse_body (response : openrouter_response) :
  null_body_status (openrouter_status response) = false →
  handleStreamingResponse response
  = Run (written (relay_run relay_start (openrouter_body response)))
      (settled (relay_run relay_start (openrouter_body response))).
Proof. intros H. unfold handleStreamingResponse. by rewrite H. Qed.

Lemma handleStreamingResponse_null (response : openrouter_response) :
  null_body_status (openrouter_status response) = true →
  handleStreamingResponse response = Run stream_headers (Some (Throw no_reader)).
Proof. intros H. unfold handleStreamingResponse. by rewrite H. Qed.

(** X3. When the upstream endpoint answers with a status outside 200..299,
    that very status is passed on, whether or not the caller asked for a
    stream, with a body whose [error] is [OpenRouter request failed:
    <status>], which the caller receives unless the status lets no body
    through (304, say); when the upstream endpoint cannot be reached the
    caller receives 500 and the message of the failure. In both cases the
    upstream request is the last outbound call. *)
Theorem upstream_failure_status (w : world) (req : request) (chatReq : value)
    (pre : list event) (thoughtContent key : jsstring) (oreq : value) :
  validateRequest req = Ok chatReq →
  local_step_done w chatReq pre thoughtContent →
  getOpenRouterKey req = Ok key →
  prepareOpenRouterRequest chatReq thoughtContent = Ok oreq →
  (∀ response,
     openrouter w key oreq = Reply response →
     ok (openrouter_status response) = false →
     http_status (openrouter_status response) →
     handler w req
     = Run (pre ++ [openrouter_fetch key oreq;
                    Status (openrouter_status response);
                    Json (VObj {[ str "error" :=
                                    VStr (str "OpenRouter request failed: "
                                            ++ N_to_jsstring (openrouter_status response)) ]})])
         (Some (Ok tt))
     ∧ response_status (calls (handler w req)) = Some (openrouter_status response)
     ∧ response_json (calls (handler w req))
       = error_received (openrouter_status response)
           (openrouter_failed (openrouter_status response)))
  ∧ (∀ name message,
       openrouter w key oreq = Failed name message →
       handler w req
       = Run (pre ++ [openrouter_fetch key oreq; Status 500;
                      Json (error_body (JSError name message))])
           (Some (Ok tt))
       ∧ response_status (calls (handler w req)) = Some 500
       ∧ response_json (calls (handler w req)) = Some (error_body (JSError name message))).
Proof.
  intros Hv Hl Hk Hp.
  pose proof (attempt_after_local w req chatReq pre thoughtContent Hv Hl) as Ha.
  pose proof (local_step_done_headers w chatReq pre thoughtContent Hl) as Hh.
  apply validated_shape in Hv as (_ & o & m & ms & -> & Hm).
  rewrite (handleOpenRouterRequest_run w o thoughtContent req key oreq Hk Hp) in Ha.
  assert (∀ e, attempt w req = Run (pre ++ [openrouter_fetch key oreq]) (Some (Throw e)) →
            handler w req
            = Run ((pre ++ [openrouter_fetch key oreq])
                     ++ [Status (default 500 (carried_status e)); Json (error_body e)])
                (Some (Ok tt))) as Hfail.
  { intros e He. unfold handler. rewrite He, (guarded_throw _ e); simpl; [done..|].
    by rewrite headersSent_app, Hh. }
  assert (headersSent (pre ++ [openrouter_fetch key oreq]) = false) as Hh'
    by (by rewrite headersSent_app, Hh).
  split.
  - intros response Hr Hok _. rewrite Hr, Hok in Ha. rewrite (Hfail _ Ha).
    cbn [calls]. split; [|split].
    + rewrite <- app_assoc. by rewrite error_body_message.
    + by apply status_sent_handleError.
    + unfold response_json. by rewrite json_sent_handleError.
  - intros name message Hr. rewrite Hr in Ha. rewrite (Hfail _ Ha).
    cbn [calls]. split; [|split].
    + by rewrite <- app_assoc.
    + by apply status_sent_handleError.
    + unfold response_json. by rewrite json_sent_handleError.
Qed.

Lemma upstream_failure_status_witness :
  validateRequest tool_request = Ok (body tool_request)
  ∧ local_step_done rate_limited_world (body tool_request) [] []
  ∧ getOpenRouterKey tool_request = Ok (str "sk-or-123")
  ∧ ∃ oreq,
      prepareOpenRouterRequest (body tool_request) [] = Ok oreq
      ∧ handler rate_limited_world tool_request
        = Run [openrouter_fetch (str "sk-or-123") oreq; Status 429;
               Json (VObj {[ str "error" := VStr (str "OpenRouter request failed: 429") ]})]
            (Some (Ok tt)).
Proof.
  assert (local_step_done rate_limited_world (body tool_request) [] []) as Hl.
  { left. split; [|done]. eexists. split; reflexivity. }
  split; [reflexivity|]. split; [exact Hl|]. split; [reflexivity|].
  eexists. split; [reflexivity|].
  destruct (upstream_failure_status rate_limited_world tool_request (body tool_request)
              [] [] (str "sk-or-123") _ eq_refl Hl eq_refl eq_refl) as [H _].
  apply (H {| openrouter_status := 429; openrouter_json := Reply VNull;
              openrouter_body := [] |}); try reflexivity.
  unfold http_status. simpl. lia.
Defined.



(** ** The decoder of the relay *)

Section Decoder.

Import TextDecoder.















End Decoder.

(** ** What the relay writes *)

Lemma relay_run_writes (st : relay) (evs : list stream_event) :
  running st → written (relay_run st evs) = written st ++ relay_writes evs.
Proof.
  revert st. induction evs as [|ev evs IH]; intros st Hst.
  - simpl. by rewrite app_nil_r.
  - destruct (decide (leaves ev)) as [Hev|Hev].
    + destruct (relay_step_leaves st ev Hst Hev) as [Hs Hw].
      simpl. rewrite relay_run_stopped, Hw by done.
      by destruct Hev as [->|[message ->]].
    + pose proof (relay_step_stays st ev Hst Hev) as Hst'.
      simpl. rewrite (IH _ Hst'). destruct Hst as [Hh Hs].
      destruct ev; simpl; rewrite ?Hh, ?Hs; simpl; rewrite <- ?app_assoc; try done.
      * destruct Hev. by left.
      * destruct Hev. right. by eexists.
Qed.



Lemma Json_not_relay_writes (evs : list stream_event) (payload : value) :
  Json payload ∉ relay_writes evs.
Proof.
  intros Hin. induction evs as [|ev evs IH]; [by apply elem_of_nil in Hin|].
  destruct ev; simpl in Hin;
    repeat (apply elem_of_cons in Hin as [Hin|Hin]; [done|]);
    try (by apply IH); by apply elem_of_nil in Hin.
Qed.

(** ** The streaming path *)

(** X6. A request that asks for a stream and whose upstream request
    succeeds with a body is answered by the relay alone: after the upstream
    request the [try] block issues the relay's calls and no [json] call, and
    it settles as the relay does; when the upstream body ends normally, the
    handler's calls stop with the end of the response. An upstream answer
    without a body (status 204 or 205) is not relayed: the three headers are
    set, asking for the reader throws before the interval is set, and the
    caller receives 500 with the message of that error. *)
Theorem streaming_path (w : world) (req : request) (chatReq : value)
    (pre : list event) (thoughtContent key : jsstring) (oreq : value)
    (response : openrouter_response) :
  validateRequest req = Ok chatReq →
  local_step_done w chatReq pre thoughtContent →
  getOpenRouterKey req = Ok key →
  prepareOpenRouterRequest chatReq thoughtContent = Ok oreq →
  openrouter w key oreq = Reply response →
  ok (openrouter_status response) = true →
  ToBoolean (get_opt "stream" chatReq) = true →
  (null_body_status (openrouter_status response) = false →
   attempt w req
   = Run (pre ++ openrouter_fetch key oreq
              :: written relay_start ++ relay_writes (openrouter_body response))
       (settled (relay_run relay_start (openrouter_body response)))
   ∧ (∀ payload, Json payload ∉ calls (attempt w req))
   ∧ (settled (relay_run relay_start (openrouter_body response)) = Some (Ok tt) →
      handler w req = attempt w req
      ∧ last (calls (handler w req)) = Some End))
  ∧ (null_body_status (openrouter_status response) = true →
     handler w req
     = Run (pre ++ openrouter_fetch key oreq
                :: stream_headers ++ [Status 500; Json (error_body no_reader)])
         (Some (Ok tt))
     ∧ timer_calls (calls (handler w req)) = []
     ∧ response_status (calls (handler w req)) = Some 500
     ∧ response_json (calls (handler w req)) = Some (error_body no_reader)).
Proof.
  intros Hv Hl Hk Hp Hr Hok Hs.
  pose proof (attempt_after_local w req chatReq pre thoughtContent Hv Hl) as Ha.
  pose proof (local_step_done_calls w chatReq pre thoughtContent Hl) as Hpre.
  pose proof (local_step_done_headers w chatReq pre thoughtContent Hl) as Hh.
  apply validated_shape in Hv as (_ & o & m & ms & -> & Hm).
  rewrite (handleOpenRouterRequest_run w o thoughtContent req key oreq Hk Hp),
    Hr, Hok, Hs in Ha.
  split; intros Hnull.
  - rewrite (handleStreamingResponse_body response Hnull) in Ha.
    simpl calls in Ha. simpl outcome in Ha.
    rewrite (relay_run_writes relay_start _ relay_start_running) in Ha.
    split; [done|]. rewrite Ha. split.
    + intros payload Hin. cbn [calls] in Hin.
      rewrite elem_of_app, elem_of_cons, elem_of_app in Hin.
      destruct Hin as [Hin|[Hin|[Hin|Hin]]].
      * destruct Hpre as [-> |(r & _ & ->)]; [by apply elem_of_nil in Hin|].
        by apply list_elem_of_singleton in Hin.
      * done.
      * unfold relay_start in Hin. simpl in Hin.
        repeat (apply elem_of_cons in Hin as [Hin|Hin]; [done|]).
        by apply elem_of_nil in Hin.
      * by apply Json_not_relay_writes in Hin.
    + intros Hset. unfold handler. rewrite Ha, guarded_ok by done.
      split; [done|]. cbn [calls].
      destruct (relay_run_cases relay_start (openrouter_body response)
                  relay_start_running) as [[_ Hrun]|[_ [before Hw]]]; [congruence|].
      rewrite <- (relay_run_writes relay_start _ relay_start_running), Hw.
      replace (pre ++ openrouter_fetch key oreq :: before ++ [ClearInterval; End])
        with ((pre ++ openrouter_fetch key oreq :: before ++ [ClearInterval]) ++ [End]).
      * apply last_snoc.
      * rewrite <- app_assoc. simpl. by rewrite <- app_assoc.
  - rewrite (handleStreamingResponse_null response Hnull) in Ha.
    simpl calls in Ha. simpl outcome in Ha.
    assert (headersSent (pre ++ openrouter_fetch key oreq :: stream_headers) = false)
      as Hsent by (by rewrite headersSent_app, Hh).
    assert (handler w req
            = Run ((pre ++ openrouter_fetch key oreq :: stream_headers)
                     ++ [Status 500; Json (error_body no_reader)])
                (Some (Ok tt))) as ->.
    { unfold handler. rewrite Ha. by rewrite (guarded_throw _ no_reader). }
    cbn [calls]. split; [|split; [|split]].
    + by rewrite <- app_assoc.
    + destruct Hpre as [-> |(r & _ & ->)]; done.
    + by apply status_sent_handleError.
    + unfold response_json. by rewrite json_sent_handleError.
Qed.

Lemma streaming_path_witness :
  validateRequest stream_request = Ok (body stream_request)
  ∧ ToBoolean (get_opt "stream" (body stream_request)) = true
  ∧ ∃ ollamaReq,
      local_step_done answering_world (body stream_request) [ollama_fetch ollamaReq]
        (str "abcd</think>xy</think>")
      ∧ ∀ payload, Json payload ∉ calls (attempt answering_world stream_request).
Proof.
  split; [reflexivity|]. split; [reflexivity|].
  destruct (prepareOllamaRequest (body stream_request)) as [ollamaReq|e] eqn:Hp;
    [|by vm_compute in Hp].
  exists ollamaReq.
  assert (local_step_done answering_world (body stream_request)
            [ollama_fetch ollamaReq] (str "abcd</think>xy</think>")) as Hl.
  { right. split.
    - intros (m & Hm & Hr). vm_compute in Hm. injection Hm as <-. by vm_compute in Hr.
    - rewrite (processOllamaRequest_run _ _ _ Hp). by vm_compute. }
  split; [exact Hl|].
  destruct (streaming_path answering_world stream_request (body stream_request) _ _
              (str "sk-or-123") _ _ eq_refl Hl eq_refl eq_refl eq_refl eq_refl eq_refl)
    as [H _].
  apply H. reflexivity.
Defined.

(** ** Requests that do not ask for a stream *)

Lemma response_calls_app (l k : list event) :
  response_calls (l ++ k) = response_calls l ++ response_calls k.
Proof. apply filter_app. Qed.

Lemma headersSent_response_calls (l : list event) :
  response_calls l = [] → headersSent l = false.
Proof.
  induction l as [|ev l IH]; [done|].
  destruct ev; simpl; first [done | apply IH].
Qed.

(** ** The order of the outbound requests *)

(** X8. The handler sends at most one request to the local endpoint and at
    most one to the upstream endpoint, and the local one comes first; on a
    tool turn there is no local request. *)
Theorem fetch_order (w : world) (req : request) :
  ∃ local upstream,
    fetches (calls (handler w req)) = local ++ upstream
    ∧ (local = []
       ∨ ∃ chatReq ollamaReq,
           validateRequest req = Ok chatReq ∧ ¬ tool_turn chatReq
           ∧ prepareOllamaRequest chatReq = Ok ollamaReq
           ∧ local = [ollama_fetch ollamaReq])
    ∧ (upstream = []
       ∨ ∃ openrouterKey openrouterReq,
           getOpenRouterKey req = Ok openrouterKey
           ∧ upstream = [openrouter_fetch openrouterKey openrouterReq]).
Proof.
  unfold handler. rewrite fetches_guarded.
  assert (∀ chatReq t,
            fetches (calls (handleOpenRouterRequest w chatReq t req)) = []
            ∨ ∃ key oreq, getOpenRouterKey req = Ok key
                          ∧ fetches (calls (handleOpenRouterRequest w chatReq t req))
                            = [openrouter_fetch key oreq]) as Hup.
  { intros chatReq t. rewrite fetches_handleOpenRouterRequest.
    destruct (getOpenRouterKey req) as [key|]; [|by left].
    destruct (prepareOpenRouterRequest chatReq t) as [oreq|]; [|by left].
    right. by exists key, oreq. }
  destruct (validateRequest req) as [chatReq|e] eqn:Hv.
  2: { rewrite (attempt_invalid w req e Hv). exists [], []. auto. }
  destruct (attempt_validated w req chatReq Hv) as [Htool Hnot].
  destruct (tool_turn_cases req chatReq Hv) as [Ht|Ht].
  - rewrite (Htool Ht). exists [].
    destruct (Hup chatReq []) as [->|(key & oreq & Hk & ->)].
    + exists []. auto.
    + exists [openrouter_fetch key oreq]. split; [done|]. split; [by left|].
      right. by exists key, oreq.
  - rewrite (Hnot Ht), calls_bind, fetches_app, calls_processOllamaRequest.
    destruct (prepareOllamaRequest chatReq) as [r|e] eqn:Hp.
    + exists [ollama_fetch r].
      assert (fetches [ollama_fetch r] = [ollama_fetch r]) as -> by done.
      destruct (outcome (processOllamaRequest w chatReq)) as [[t|]|].
      * destruct (Hup chatReq t) as [->|(key & oreq & Hk & ->)].
        -- exists []. split; [done|]. split; [|by left].
           right. by exists chatReq, r.
        -- exists [openrouter_fetch key oreq]. split; [done|]. split.
           ++ right. by exists chatReq, r.
           ++ right. by exists key, oreq.
      * exists []. split; [done|]. split; [|by left]. right. by exists chatReq, r.
      * exists []. split; [done|]. split; [|by left]. right. by exists chatReq, r.
    + unfold processOllamaRequest. rewrite Hp. simpl. exists [], []. auto.
Qed.

(** ** The credential on its way upstream *)

Lemma replace_with_empty_prefix (pat token : jsstring) :
  replace_with_empty pat (pat ++ token) = token.
Proof.
  unfold replace_with_empty.
  assert (indexOf pat (pat ++ token) = Some 0%nat) as ->.
  { destruct token, pat; simpl; rewrite ?N.eqb_refl, ?startsWith_app; done. }
  simpl. apply drop_app_length.
Qed.

(** X9. A header of the form [Bearer <token>] with a non-empty token passes
    upstream unchanged: the key is the token, and every request the handler
    sends to the upstream endpoint carries the inbound header verbatim as
    its [Authorization] header. *)
Theorem bearer_round_trip (w : world) (req : request) (token : jsstring) :
  token ≠ [] →
  authorization req = Some (str "Bearer " ++ token) →
  getOpenRouterKey req = Ok token
  ∧ ∀ hs p,
      Fetch OPENROUTER_URL hs p ∈ calls (handler w req) →
      (str "Authorization", str "Bearer " ++ token) ∈ hs.
Proof.
  intros Hne Hauth.
  assert (getOpenRouterKey req = Ok token) as Hk.
  { unfold getOpenRouterKey. rewrite Hauth. cbn [fmap option_fmap option_map].
    rewrite (replace_with_empty_prefix (str "Bearer ") token).
    by destruct token. }
  split; [done|].
  intros hs p [chatReq [_ [H|H]]]%elem_of_calls_fetch%fetches_handler.
  - by destruct H as (_ & r & _ & [=]).
  - destruct H as (key & t & oreq & Hk' & _ & [= -> _] & _).
    rewrite Hk in Hk'. injection Hk' as <-.
    apply list_elem_of_further, list_elem_of_here.
Qed.

Lemma bearer_round_trip_witness :
  str "sk-or-123" ≠ []
  ∧ authorization bearer_request = Some (str "Bearer " ++ str "sk-or-123")
  ∧ getOpenRouterKey bearer_request = Ok (str "sk-or-123").
Proof.
  assert (str "sk-or-123" ≠ []) as H by done.
  split; [exact H|]. split; [reflexivity|].
  apply (bearer_round_trip answering_world bearer_request (str "sk-or-123") H eq_refl).
Defined.

(** ** The messages sent to the local endpoint *)

Lemma remap_shape (m m' : value) : remap m = Ok m' → local_message m'.
Proof.
  unfold remap. destruct (get (str "role") m) as [role|]; [|done].
  destruct (get (str "content") m) as [content|]; [|done].
  simpl. intros [= <-]. eexists _, content. split; [done|].
  destruct (strict_eq_str role (str "tool")) eqn:E; [done|].
  intros Hr. apply strict_eq_str_true in Hr. congruence.
Qed.

Lemma mapM_remap_shape (l l' : list value) :
  mapM remap l = Ok l' → Forall local_message l'.
Proof.
  revert l'. induction l as [|x l IH]; intros l'; simpl.
  - by intros [= <-].
  - destruct (remap x) as [y|] eqn:Ex; [|done]. simpl.
    destruct (mapM remap l) as [k|] eqn:Ek; [|done]. simpl.
    intros [= <-]. constructor; [by apply (remap_shape x)|by apply IH].
Qed.

(** X10. Whatever request it is built from, every message of a local
    request is an object with the two fields [role] and [content] and
    nothing else (a tool call id, a name and the like are dropped), and none
    has the role [tool]. *)
Theorem local_messages_shape (chatReq ollamaReq : value) :
  prepareOllamaRequest chatReq = Ok ollamaReq →
  ∃ messages,
    get_opt "messages" ollamaReq = VArr messages
    ∧ Forall local_message messages.
Proof.
  unfold prepareOllamaRequest. destruct chatReq as [| | | | | |o]; try done.
  simpl.
  destruct (delete (str "tools") o !! str "messages") as [[| | | | |l|]|]; try done.
  destruct (mapM remap l) as [l'|] eqn:El; [|done]. simpl. intros [= <-].
  exists l'. split; [|by apply (mapM_remap_shape l)].
  simpl. rewrite !lookup_insert_ne by done. by rewrite lookup_insert_eq.
Qed.

Lemma local_messages_shape_witness :
  ∃ ollamaReq messages,
    prepareOllamaRequest (body tool_request) = Ok ollamaReq
    ∧ get_opt "messages" ollamaReq = VArr messages
    ∧ Forall local_message messages.
Proof.
  destruct (prepareOllamaRequest (body tool_request)) as [ollamaReq|e] eqn:Hp;
    [|by vm_compute in Hp].
  destruct (local_messages_shape (body tool_request) ollamaReq Hp) as (ms & H1 & H2).
  by exists ollamaReq, ms.
Defined.

(** ** The line that ends the loop *)

Lemma line_step_final (acc line : jsstring) :
  final_line line = true → ∃ acc', line_step acc line = Ok (acc', true).
Proof.
  unfold final_line, line_step.
  destruct (JSON.parse line) as [[| | | | | |o]|]; try done. simpl.
  intros [Hd Hc]%andb_true_iff. rewrite Hd.
  destruct (get_opt (str "content") (default VUndef (o !! str "message")))
    as [| |b|x|s| |]; try done; simpl.
  - by eexists.
  - by eexists.
  - destruct b; by eexists.
  - destruct (Float64.to_boolean x); by eexists.
  - destruct (negb (bool_decide (s = []))); by eexists.
Qed.

(** X11. Nothing after the line that ends the loop is looked at: once a
    line parses to an object with a truthy [done] (and a content delta that
    can be appended), the lines that follow it, well formed or not, do not
    change the accumulated text. *)
Theorem done_line_is_last (acc : jsstring) (pre : list jsstring) (line : jsstring)
    (rest : list jsstring) :
  final_line line = true →
  accumulate acc (pre ++ line :: rest) = accumulate acc (pre ++ [line]).
Proof.
  intros Hl. revert acc. induction pre as [|p pre IH]; intros acc.
  - simpl. by destruct (line_step_final acc line Hl) as [acc' ->].
  - simpl. destruct (line_step acc p) as [[acc' []]|e]; [done|apply IH|apply IH].
Qed.

Lemma done_line_is_last_witness :
  final_line (json_text "{'done':true}") = true
  ∧ accumulate [] ([json_text "{'message':{'content':'a'}}"]
                   ++ json_text "{'done':true}"
                        :: [json_text "{'message':{'content':'late'}}"; str "}{"])
    = accumulate [] ([json_text "{'message':{'content':'a'}}"]
                     ++ [json_text "{'done':true}"]).
Proof.
  split; [reflexivity|]. apply done_line_is_last. reflexivity.
Defined.

(** ** From the local answer to the upstream request *)

(** X12. On a turn that is not a tool turn, when the local endpoint answers
    with a status in 200..299 and a readable body, the handler sends exactly
    two requests, the local one and then the upstream one, and the messages
    of the upstream request are the original ones followed, when the
    fragment extracted from the local body is not empty, by the assistant
    message that holds it. *)
Theorem thought_reaches_upstream (w : world) (req : request)
    (chatReq ollamaReq : value) (response : ollama_response)
    (rawResponse key : jsstring) :
  validateRequest req = Ok chatReq →
  ¬ tool_turn chatReq →
  prepareOllamaRequest chatReq = Ok ollamaReq →
  ollama w ollamaReq = Reply response →
  ok (ollama_status response) = true →
  ollama_text response = Reply rawResponse →
  getOpenRouterKey req = Ok key →
  ∃ messages openrouterReq,
    get_opt "messages" chatReq = VArr messages
    ∧ prepareOpenRouterRequest chatReq (thought (accumulate [] (lines_of rawResponse)))
      = Ok openrouterReq
    ∧ fetches (calls (handler w req))
      = [ollama_fetch ollamaReq; openrouter_fetch key openrouterReq]
    ∧ get_opt "messages" openrouterReq
      = VArr (messages
                ++ (if bool_decide (thought (accumulate [] (lines_of rawResponse)) = [])
                    then []
                    else [assistant_message
                            (thought (accumulate [] (lines_of rawResponse)))])).
Proof.
  intros Hv Ht Hp Hr Hok Htext Hk.
  pose proof (processOllamaRequest_run w chatReq ollamaReq Hp) as Hrun.
  rewrite Hr, Hok, Htext in Hrun.
  pose proof (attempt_after_local w req chatReq _ _ Hv (or_intror (conj Ht Hrun))) as Ha.
  pose proof Hv as (_ & o & m & ms & -> & Hm)%validated_shape.
  exists (m :: ms). eexists. split; [by simpl; rewrite Hm|].
  assert (∀ t, prepareOpenRouterRequest (VObj o) t
               = Ok (VObj (<[str "messages" :=
                               VArr ((m :: ms)
                                       ++ (if bool_decide (t = []) then []
                                           else [assistant_message t]))]>
                             (<[str "model" := VStr CLAUDE_MODEL]> o)))) as Hq.
  { intros t. unfold prepareOpenRouterRequest. by rewrite Hm. }
  split; [apply Hq|]. split.
  - unfold handler. rewrite fetches_guarded, Ha. cbn [calls].
    rewrite fetches_app, fetches_handleOpenRouterRequest, Hk, Hq. done.
  - simpl. by rewrite lookup_insert_eq.
Qed.

Lemma thought_reaches_upstream_witness :
  ∃ messages openrouterReq,
    get_opt "messages" (body stream_request) = VArr messages
    ∧ get_opt "messages" openrouterReq
      = VArr (messages ++ [assistant_message (str "abcd</think>xy</think>")]).
Proof.
  destruct (prepareOllamaRequest (body stream_request)) as [ollamaReq|e] eqn:Hp;
    [|by vm_compute in Hp].
  destruct (thought_reaches_upstream answering_world stream_request
              (body stream_request) ollamaReq
              {| ollama_status := 200; ollama_text := Reply worked_example |}
              worked_example (str "sk-or-123"))
    as (messages & oreq & H1 & _ & _ & H4); try reflexivity; try exact Hp.
  - intros (m & Hm & Hrole). vm_compute in Hm. injection Hm as <-.
    by vm_compute in Hrole.
  - exists messages, oreq. split; [exact H1|]. rewrite H4. reflexivity.
Defined.

(** ** Every way through the handler *)

Lemma response_calls_processOllamaRequest (w : world) (chatReq : value) :
  response_calls (calls (processOllamaRequest w chatReq)) = [].
Proof.
  rewrite calls_processOllamaRequest. by destruct (prepareOllamaRequest chatReq).
Qed.

Lemma processOllamaRequest_responsive (w : world) (chatReq : value) :
  responsive w → outcome (processOllamaRequest w chatReq) ≠ None.
Proof.
  intros (H1 & H2 & _).
  destruct (prepareOllamaRequest chatReq) as [r|e] eqn:Hp.
  - rewrite (processOllamaRequest_run w chatReq r Hp). simpl.
    destruct (ollama w r) as [response|name message|] eqn:Hr;
      [|done|by destruct (H1 r)].
    destruct (ok (ollama_status response)); [|done].
    destruct (ollama_text response) eqn:Ht; [done|done|].
    by destruct (H2 r response Hr).
  - unfold processOllamaRequest. by rewrite Hp.
Qed.

Lemma response_calls_relay_start (evs : list stream_event) :
  response_calls (written (relay_run relay_start evs))
  = written relay_start ++ response_calls (relay_writes evs).
Proof. by rewrite (relay_run_writes relay_start evs relay_start_running). Qed.

Lemma handleOpenRouterRequest_cases (w : world) (o : gmap jsstring value)
    (thoughtContent : jsstring) (req : request) :
  let m := handleOpenRouterRequest w (VObj o) thoughtContent req in
  (ToBoolean (get_opt "stream" (VObj o)) = false ∧ one_json m)
  ∨ quiet_error m
  ∨ (waiting m ∧ ¬ responsive w)
  ∨ (ToBoolean (get_opt "stream" (VObj o)) = true ∧ (no_body m ∨ relays m)).
Proof.
  intros m. subst m.
  destruct (getOpenRouterKey req) as [key|e] eqn:Hk.
  2: { right. left. exists e. unfold handleOpenRouterRequest. by rewrite Hk. }
  destruct (prepareOpenRouterRequest (VObj o) thoughtContent) as [oreq|e] eqn:Hp.
  2: { right. left. exists e. unfold handleOpenRouterRequest.
       by rewrite Hk, lift_bind, Hp. }
  rewrite (handleOpenRouterRequest_run w o thoughtContent req key oreq Hk Hp).
  destruct (openrouter w key oreq) as [response|name message|] eqn:Hr.
  - destruct (ok (openrouter_status response)); [|right; left; by eexists].
    destruct (ToBoolean (get_opt "stream" (VObj o))) eqn:Hs.
    + right. right. right. split; [done|].
      destruct (null_body_status (openrouter_status response)) eqn:Hnull.
      * left. by rewrite (handleStreamingResponse_null response Hnull).
      * right. rewrite (handleStreamingResponse_body response Hnull).
        by exists [openrouter_fetch key oreq], (openrouter_body response).
    + destruct (openrouter_json response) as [payload|name message|] eqn:Hj.
      * left. split; [done|]. by exists payload.
      * right. left. by eexists.
      * right. right. left. split; [done|].
        intros (_ & _ & _ & H). by destruct (H key oreq response Hr).
  - right. left. by eexists.
  - right. right. left. split; [done|]. intros (_ & _ & H & _). by destruct (H key oreq).
Qed.

(** The [try] block stands in one of five ways; it waits for an endpoint
    only in a world where a call hangs. *)
Lemma attempt_cases (w : world) (req : request) :
  let m := attempt w req in
  (ToBoolean (get_opt "stream" (body req)) = false ∧ one_json m)
  ∨ quiet_error m
  ∨ (waiting m ∧ ¬ responsive w)
  ∨ (ToBoolean (get_opt "stream" (body req)) = true ∧ (no_body m ∨ relays m)).
Proof.
  intros m. subst m.
  destruct (validateRequest req) as [chatReq|e] eqn:Hv.
  2: { right. left. exists e. by rewrite (attempt_invalid w req e Hv). }
  destruct (attempt_validated w req chatReq Hv) as [Htool Hnot].
  pose proof Hv as (Hb & o & m & ms & -> & Hm)%validated_shape. rewrite Hb.
  destruct (tool_turn_cases req (VObj o) Hv) as [Ht|Ht].
  - rewrite (Htool Ht). apply handleOpenRouterRequest_cases.
  - rewrite (Hnot Ht).
    pose proof (response_calls_processOllamaRequest w (VObj o)) as Hc.
    pose proof (processOllamaRequest_responsive w (VObj o)) as Hresp.
    unfold one_json, quiet_error, waiting, no_body.
    rewrite calls_bind, outcome_bind, response_calls_app, Hc.
    destruct (outcome (processOllamaRequest w (VObj o))) as [[t|e]|] eqn:Hout.
    + destruct (handleOpenRouterRequest_cases w o t req)
        as [H|[H|[H|[Hs [H|(pre & evs & H1 & H2 & H3)]]]]].
      * by left.
      * right. by left.
      * right. right. by left.
      * right. right. right. split; [done|]. by left.
      * right. right. right. split; [done|]. right.
        exists (calls (processOllamaRequest w (VObj o)) ++ pre), evs.
        rewrite response_calls_app, Hc, H1, calls_bind, outcome_bind, Hout, H2, H3.
        by rewrite app_assoc.
    + right. left. by exists e.
    + right. right. left. split; [done|]. intros H. by apply Hresp.
Qed.

Lemma headersSent_response_calls_eq (l : list event) :
  headersSent (response_calls l) = headersSent l.
Proof.
  induction l as [|ev l IH]; [done|].
  destruct ev; simpl; first [exact IH | by rewrite ?IH].
Qed.

Lemma relay_settled_throw (st : relay) (evs : list stream_event) (e : error) :
  running st → settled (relay_run st evs) = Some (Throw e) → carried_status e = None.
Proof.
  revert st. induction evs as [|ev evs IH]; intros st Hst.
  - simpl. destruct Hst as [_ ->]. done.
  - destruct (decide (leaves ev)) as [Hev|Hev].
    + destruct (relay_step_leaves st ev Hst Hev) as [Hs _].
      simpl relay_run. rewrite relay_run_stopped by done.
      destruct Hst as [_ Hst].
      destruct Hev as [->|[message ->]]; simpl; rewrite Hst; simpl; by intros [= <-].
    + simpl relay_run. by apply IH, relay_step_stays.
Qed.

Lemma status_sent_quiet (c : N) (pre rest : list event) :
  response_calls pre = [] → status_sent c (pre ++ rest) = status_sent c rest.
Proof.
  induction pre as [|ev pre IH]; [done|].
  destruct ev; simpl; first [done | exact IH].
Qed.

Lemma status_sent_relay_writes (c : N) (evs : list stream_event) :
  headersSent (relay_writes evs) = true → status_sent c (relay_writes evs) = Some c.
Proof.
  induction evs as [|ev evs IH]; [done|]. destruct ev; simpl; try done.
Qed.

(** An error thrown by the [try] block once the response has gone out comes
    from a read that failed in the relay; the relay has then ended the
    response, under the status 200. *)
Lemma attempt_throw_sent (w : world) (req : request) (e : error) :
  outcome (attempt w req) = Some (Throw e) →
  headersSent (calls (attempt w req)) = true →
  ToBoolean (get_opt "stream" (body req)) = true
  ∧ carried_status e = None
  ∧ response_status (calls (attempt w req)) = Some 200
  ∧ ∃ before, calls (attempt w req) = before ++ [ClearInterval; End].
Proof.
  intros Ho Hsent.
  destruct (attempt_cases w req)
    as [[_ (p & H1 & _)]|[(e' & _ & H2)|[[[H1 _] _]|[Hs [[_ H2]|(pre & evs & H1 & H2 & H3)]]]]].
  - congruence.
  - by rewrite (headersSent_response_calls _ H2) in Hsent.
  - congruence.
  - by rewrite <- headersSent_response_calls_eq, H2 in Hsent.
  - rewrite Ho in H3. symmetry in H3. split; [done|].
    split; [by apply (relay_settled_throw relay_start evs e relay_start_running)|].
    destruct (relay_run_cases relay_start evs relay_start_running)
      as [[_ Hr]|[_ [before Hw]]]; [congruence|].
    split.
    + rewrite H2 in Hsent |- *.
      rewrite (relay_run_writes relay_start evs relay_start_running) in Hsent |- *.
      unfold response_status. rewrite status_sent_quiet by done.
      rewrite !headersSent_app, (headersSent_response_calls _ H1) in Hsent.
      simpl in Hsent. by apply status_sent_relay_writes.
    + exists (pre ++ before). by rewrite H2, Hw, <- app_assoc.
Qed.

(** ** Error Mapper, continued *)

(** C8, as the code has it. An error that reaches the Error Mapper before
    the response has gone out, with the status code it carries a valid one
    (or with none), has that status set, or 500 when it carries none, and a
    JSON body handed to [json] whose only field [error] holds the message of
    the error (a fixed text when the message is empty); the Error Mapper
    then returns normally and the handler is done. The caller receives that
    status, and that body unless the status lets no body through. Every
    error that carries a status code arrives that early. An error that
    arrives later comes from a read that failed in the relay: it carries no
    status code, and the relay has ended the response, which went out under
    the status 200. *)
Theorem handleError_spec (e : error) (res : list event) :
  headersSent res = false →
  http_status (default 500 (carried_status e)) →
  handleError e res
  = Run [Status (default 500 (carried_status e)); Json (error_body e)] (Some (Ok tt))
  ∧ response_status (res ++ calls (handleError e res))
    = Some (default 500 (carried_status e))
  ∧ response_json (res ++ calls (handleError e res))
    = (if bodiless (default 500 (carried_status e)) then None else Some (error_body e))
  ∧ (∃ text, error_body e = VObj {[ str "error" := VStr text ]}
             ∧ (error_message e ≠ [] → text = error_message e))
  ∧ (∀ w req,
       calls (attempt w req) = res →
       outcome (attempt w req) = Some (Throw e) →
       handler w req
       = Run (res ++ [Status (default 500 (carried_status e)); Json (error_body e)])
           (Some (Ok tt)))
  ∧ (∀ w req e' statusCode,
       outcome (attempt w req) = Some (Throw e') →
       carried_status e' = Some statusCode →
       headersSent (calls (attempt w req)) = false)
  ∧ (∀ w req e',
       outcome (attempt w req) = Some (Throw e') →
       headersSent (calls (attempt w req)) = true →
       carried_status e' = None
       ∧ response_status (calls (attempt w req)) = Some 200
       ∧ ∃ before, calls (attempt w req) = before ++ [ClearInterval; End]).
Proof.
  intros Hres _. rewrite (handleError_run e res Hres). simpl.
  split; [done|]. split; [by apply status_sent_handleError|].
  split; [unfold response_json; by rewrite json_sent_handleError|].
  split; [|split; [|split]].
  - eexists. split; [done|]. intros H. by rewrite bool_decide_eq_false_2.
  - intros w req Hc Ho. unfold handler, guarded, try_catch.
    by rewrite Ho, Hc, (handleError_run e res Hres).
  - intros w req e' c Ho Hs.
    destruct (headersSent (calls (attempt w req))) eqn:H; [|done].
    apply attempt_no_status in H. rewrite Ho in H. simpl in H. congruence.
  - intros w req e' Ho Hsent.
    by destruct (attempt_throw_sent w req e' Ho Hsent) as (_ & ? & ? & ?).
Qed.

Lemma handleError_spec_witness :
  headersSent [] = false
  ∧ http_status 401
  ∧ handleError missing_key [] = Run unauthorized (Some (Ok tt)).
Proof.
  assert (http_status 401) as H by (unfold http_status; lia).
  split; [reflexivity|]. split; [exact H|].
  apply (handleError_spec missing_key [] eq_refl H).
Defined.

(** C8, as the specification states it, fails, in two ways. When a read of
    the upstream body fails in mid-stream, the error reaches the Error
    Mapper after the relay has ended the response: the error carries no
    status code, yet the status the caller has received is 200, no JSON body
    is sent, and the call on the response throws. And when an endpoint
    answers 304, the error carries that status and the Error Mapper hands
    its body to [json], but under 304 no body goes out: the caller receives
    the status and nothing else. *)
Lemma handleError_counterexample :
  let m := attempt broken_stream_world stream_request in
  outcome m = Some (Throw (JSError "TypeError" (str "terminated")))
  ∧ headersSent (calls m) = true
  ∧ response_status (calls (handler broken_stream_world stream_request)) = Some 200
  ∧ response_json (calls (handler broken_stream_world stream_request)) = None
  ∧ outcome (handler broken_stream_world stream_request)
    = Some (Throw ERR_HTTP_HEADERS_SENT)
  ∧ outcome (attempt not_modified_world tool_request)
    = Some (Throw (openrouter_failed 304))
  ∧ headersSent (calls (attempt not_modified_world tool_request)) = false
  ∧ outcome (handler not_modified_world tool_request) = Some (Ok tt)
  ∧ response_status (calls (handler not_modified_world tool_request)) = Some 304
  ∧ response_json (calls (handler not_modified_world tool_request)) = None.
Proof. repeat split; by vm_compute. Qed.

(** ** Requests that do not ask for a stream *)

(** X7. A request that does not ask for a stream is answered at most once,
    and the handler never fails on it. At any time, either the handler has
    settled normally and its calls on the response are the one [json] call
    of the upstream body, or a [status] call followed by one [json] call of
    an error; or it is waiting for an endpoint that does not answer and has
    issued no call on the response. It sets no header, writes nothing and
    starts no timer. In a world where no fetch and no reading of a body
    hangs, the request is answered. *)
Theorem single_json_response (w : world) (req : request) :
  ToBoolean (get_opt "stream" (body req)) = false →
  ((outcome (handler w req) = Some (Ok tt)
    ∧ ((∃ payload, response_calls (calls (handler w req)) = [Json payload])
       ∨ (∃ e, response_calls (calls (handler w req))
               = [Status (default 500 (carried_status e)); Json (error_body e)])))
   ∨ (outcome (handler w req) = None ∧ ¬ responsive w
      ∧ response_calls (calls (handler w req)) = []))
  ∧ (responsive w → outcome (handler w req) = Some (Ok tt)).
Proof.
  intros Hs. unfold handler.
  assert ((outcome (guarded (attempt w req)) = Some (Ok tt)
           ∧ ((∃ payload, response_calls (calls (guarded (attempt w req))) = [Json payload])
              ∨ (∃ e, response_calls (calls (guarded (attempt w req)))
                      = [Status (default 500 (carried_status e)); Json (error_body e)])))
          ∨ (outcome (guarded (attempt w req)) = None ∧ ¬ responsive w
             ∧ response_calls (calls (guarded (attempt w req))) = [])) as H.
  { destruct (attempt_cases w req)
      as [[_ (p & H1 & H2)]|[(e & H1 & H2)|[[[H1 H2] Hw]|[Hs' _]]]].
    - left. rewrite (guarded_ok _ H1). split; [done|]. left. by exists p.
    - left. rewrite (guarded_throw _ e H1 (headersSent_response_calls _ H2)).
      split; [done|]. right. exists e. simpl. by rewrite response_calls_app, H2.
    - right. by rewrite (guarded_pending _ H1).
    - congruence. }
  split; [exact H|]. intros Hw. by destruct H as [[H _]|(_ & H & _)].
Qed.

Lemma single_json_response_witness :
  ToBoolean (get_opt "stream" (body example_request)) = false
  ∧ outcome (handler busy_local_world example_request) = Some (Ok tt).
Proof.
  split; [reflexivity|].
  destruct (single_json_response busy_local_world example_request eq_refl) as [_ H].
  apply H. repeat split; try done. by intros r response [= <-].
Defined.

(** ** The heartbeat timer *)

Lemma timer_calls_app (l k : list event) :
  timer_calls (l ++ k) = timer_calls l ++ timer_calls k.
Proof. apply filter_app. Qed.

Lemma timer_calls_response_calls (l : list event) :
  timer_calls (response_calls l) = timer_calls l.
Proof.
  unfold timer_calls, response_calls.
  induction l as [|ev l IH]; [done|].
  destruct ev; rewrite (filter_cons is_response_call); simpl;
    rewrite ?filter_cons; simpl; by rewrite ?IH.
Qed.

Lemma timer_calls_unset (l rc : list event) :
  response_calls l = rc → timer_calls rc = [] → timer_calls l = [].
Proof. intros H1 H2. by rewrite <- timer_calls_response_calls, H1. Qed.

Lemma timer_calls_relay_writes (st : relay) (evs : list stream_event) :
  running st →
  timer_calls (relay_writes evs)
  = match settled (relay_run st evs) with
    | Some _ => [ClearInterval]
    | None => []
    end.
Proof.
  revert st. induction evs as [|ev evs IH]; intros st Hst.
  - simpl. by destruct Hst as [_ ->].
  - destruct (decide (leaves ev)) as [Hev|Hev].
    + destruct (relay_step_leaves st ev Hst Hev) as [[Hh Hs] Hw].
      simpl relay_run. rewrite relay_run_stopped by done.
      destruct (settled (relay_step st ev)); [|done].
      by destruct Hev as [->|[message ->]].
    + pose proof (relay_step_stays st ev Hst Hev) as Hst'.
      simpl relay_run. rewrite <- (IH _ Hst').
      destruct ev; try done.
      * destruct Hev. by left.
      * destruct Hev. right. by eexists.
Qed.

Lemma timer_calls_handleError (e : error) (res : list event) :
  timer_calls (calls (handleError e res)) = []
  ∧ outcome (handleError e res) ≠ None.
Proof.
  destruct (headersSent res) eqn:H.
  - by rewrite handleError_sent.
  - by rewrite handleError_run.
Qed.

Lemma guarded_timers (m : M unit) :
  timer_calls (calls (guarded m)) = timer_calls (calls m)
  ∧ (outcome (guarded m) = None ↔ outcome m = None).
Proof.
  unfold guarded, try_catch.
  destruct (outcome m) as [[[]|e]|] eqn:Ho; rewrite ?Ho; try done.
  destruct (timer_calls_handleError e (calls m)) as [Hc Hn].
  cbn [calls outcome]. rewrite timer_calls_app, Hc, app_nil_r.
  split; [done|]. split; [|done]. intros H. by destruct Hn.
Qed.

(** X13. No interval outlives the handler. Whatever the request and the
    world, once the handler has settled its timer calls are none at all, or
    one [setInterval] of 15 seconds followed by one [clearInterval]. While
    the handler has not settled, no interval is set, or the one interval of
    a streaming request is set and not yet cleared; the latter is the only
    possibility in a world where no fetch and no reading of a body hangs:
    the handler then waits on the upstream body it relays. A request that
    does not ask for a stream sets no interval. *)
Theorem timers_balanced (w : world) (req : request) :
  (outcome (handler w req) ≠ None →
   timer_calls (calls (handler w req)) = []
   ∨ timer_calls (calls (handler w req)) = [SetInterval 15000; ClearInterval])
  ∧ (outcome (handler w req) = None →
     (timer_calls (calls (handler w req)) = [] ∧ ¬ responsive w)
     ∨ (timer_calls (calls (handler w req)) = [SetInterval 15000]
        ∧ ToBoolean (get_opt "stream" (body req)) = true))
  ∧ (ToBoolean (get_opt "stream" (body req)) = false →
     timer_calls (calls (handler w req)) = []).
Proof.
  unfold handler. destruct (guarded_timers (attempt w req)) as [-> Hn].
  assert (outcome (guarded (attempt w req)) ≠ None ↔ outcome (attempt w req) ≠ None)
    as -> by (by rewrite Hn).
  rewrite Hn. clear Hn.
  destruct (attempt_cases w req)
    as [[_ (p & H1 & H2)]
       |[(e & H1 & H2)
        |[[[H1 H2] Hw]
         |[Hs [[H1 H2]|(pre & evs & H1 & H2 & H3)]]]]].
  - rewrite (timer_calls_unset _ _ H2 eq_refl), H1. by repeat split; auto.
  - rewrite (timer_calls_unset _ _ H2 eq_refl), H1. by repeat split; auto.
  - rewrite (timer_calls_unset _ _ H2 eq_refl), H1. by repeat split; auto.
  - rewrite (timer_calls_unset _ _ H2 eq_refl), H1, Hs. by repeat split; auto.
  - rewrite H2, H3, (relay_run_writes relay_start evs relay_start_running),
      !timer_calls_app, (timer_calls_unset _ _ H1 eq_refl),
      (timer_calls_relay_writes relay_start evs relay_start_running), Hs.
    destruct (settled (relay_run relay_start evs)); simpl.
    + split; [by right|]. by split.
    + split; [done|]. split; [by right|done].
Qed.

(** ** When the handler itself fails *)

Lemma quiet_no_json (l : list event) (payload : value) :
  response_calls l = [] → Json payload ∉ l.
Proof.
  intros H Hin.
  assert (Json payload ∈ response_calls l) as Hin'
    by (by apply list_elem_of_filter).
  rewrite H in Hin'. by apply elem_of_nil in Hin'.
Qed.

(** X14. The handler itself fails in one way only: a read of the upstream
    body fails while a stream is being relayed. The relay has then cleared
    the interval and ended the response; the Error Mapper sets the status
    500 on a response that has gone out, its [json] call throws, and the
    handler rejects with that error. No JSON body is ever sent on that
    path. *)
Theorem handler_rejects_mid_stream (w : world) (req : request) (e : error) :
  outcome (handler w req) = Some (Throw e) →
  e = ERR_HTTP_HEADERS_SENT
  ∧ ToBoolean (get_opt "stream" (body req)) = true
  ∧ (∃ e', outcome (attempt w req) = Some (Throw e') ∧ carried_status e' = None)
  ∧ (∃ before, calls (handler w req) = before ++ [ClearInterval; End; Status 500])
  ∧ ∀ payload, Json payload ∉ calls (handler w req).
Proof.
  unfold handler.
  destruct (attempt_cases w req)
    as [[_ (p & H1 & H2)]
       |[(e' & H1 & H2)
        |[[[H1 H2] Hw]
         |[Hs [[H1 H2]|(pre & evs & H1 & H2 & H3)]]]]].
  - by rewrite (guarded_ok _ H1), H1.
  - by rewrite (guarded_throw _ e' H1 (headersSent_response_calls _ H2)).
  - by rewrite (guarded_pending _ H1), H1.
  - rewrite (guarded_throw _ no_reader H1); [done|].
    by rewrite <- headersSent_response_calls_eq, H2.
  - destruct (settled (relay_run relay_start evs)) as [[[]|e']|] eqn:Hset.
    + by rewrite (guarded_ok _ H3), H3.
    + pose proof (relay_settled_throw relay_start evs e' relay_start_running Hset)
        as Hcarried.
      destruct (relay_run_cases relay_start evs relay_start_running)
        as [[_ Hr]|[_ [before Hw]]]; [congruence|].
      assert (headersSent (calls (attempt w req)) = true) as Hsent.
      { rewrite H2, Hw, !headersSent_app. simpl. by rewrite !orb_true_r. }
      unfold guarded, try_catch. rewrite H3, (handleError_sent e' _ Hsent), Hcarried.
      cbn [calls outcome default]. intros [= <-].
      split; [done|]. split; [done|]. split; [by exists e'|]. split.
      * exists (pre ++ before). rewrite H2, Hw, <- !app_assoc. done.
      * intros payload Hin. rewrite H2 in Hin.
        rewrite (relay_run_writes relay_start evs relay_start_running) in Hin.
        rewrite !elem_of_app in Hin. destruct Hin as [[Hin|[Hin|Hin]]|Hin].
        -- by apply (quiet_no_json pre payload H1).
        -- unfold relay_start in Hin. simpl in Hin.
           repeat (apply elem_of_cons in Hin as [Hin|Hin]; [done|]).
           by apply elem_of_nil in Hin.
        -- by apply Json_not_relay_writes in Hin.
        -- by apply list_elem_of_singleton in Hin.
    + by rewrite (guarded_pending _ H3), H3.
Qed.

Lemma handler_rejects_mid_stream_witness :
  outcome (handler broken_stream_world stream_request) = Some (Throw ERR_HTTP_HEADERS_SENT)
  ∧ ToBoolean (get_opt "stream" (body stream_request)) = true.
Proof.
  assert (outcome (handler broken_stream_world stream_request)
          = Some (Throw ERR_HTTP_HEADERS_SENT)) as H by (vm_compute; reflexivity).
  split; [exact H|].
  destruct (handler_rejects_mid_stream broken_stream_world stream_request _ H)
    as (_ & Hs & _).
  exact Hs.
Defined.
